(** * btctoy.crypto: finite-field arithmetic, the secp256k1 point group,
      ECDSA signing and verification, DER and SEC encodings.

    A shallow embedding of [src/btctoy/crypto/__init__.py].  Python integers
    are [Z]; [bytes] are lists of [byte]; a method that can raise returns a
    [result]; the two [while] loops run on fuel.  The primality test
    [is_prime] and HMAC-SHA256 live outside the module and are taken as
    parameters of the development. *)

From Stdlib Require Import ZArith Znumtheory Zcong List Bool Lia.
From Stdlib Require Import Zmod.ZmodInv.
From coqutil Require Import Byte.
Import ListNotations.
Local Open Scope Z_scope.

(** ** Outcomes of a call *)

Inductive PyError : Type :=
| ValueError
| TypeError
| OverflowError
| IndexError
| SyntaxError
| AttributeError
| ZeroDivisionError.

(** [Ok v]: the call returned [v]; [Raise e]: it raised [e]; [OutOfFuel]:
    the loop budget of the model was used up before the call returned. *)
Inductive result (A : Type) : Type :=
| Ok (v : A)
| Raise (e : PyError)
| OutOfFuel.

Arguments Ok {A} v.
Arguments Raise {A} e.
Arguments OutOfFuel {A}.

Definition bind {A B : Type} (m : result A) (f : A -> result B) : result B :=
  match m with
  | Ok v => f v
  | Raise e => Raise e
  | OutOfFuel => OutOfFuel
  end.

Notation "x <- m ;; k" := (bind m (fun x => k))
  (at level 61, m at next level, right associativity).
Notation "' pat <- m ;; k" := (bind m (fun x => match x with pat => k end))
  (at level 61, pat pattern, m at next level, right associativity).

Definition returns {A : Type} (m : result A) : Prop := exists v, m = Ok v.

(** ** Python built-ins used by the module *)

(** [a % b] on integers: floored, sign of the divisor. *)
Definition py_mod (a b : Z) : result Z :=
  if b =? 0 then Raise ZeroDivisionError else Ok (a mod b).

Fixpoint pow_mod_pos (b : Z) (e : positive) (m : Z) : Z :=
  match e with
  | xH => b mod m
  | xO e' => let t := pow_mod_pos b e' m in (t * t) mod m
  | xI e' => let t := pow_mod_pos b e' m in ((t * t) mod m * b) mod m
  end.

(** [b ** e % m] for [0 <= e], by square and multiply. *)
Definition pow_mod (b e m : Z) : Z :=
  match e with
  | Zpos e' => pow_mod_pos b e' m
  | _ => 1 mod m
  end.

(** Three-argument [pow(base, exp, mod)].  A zero modulus is a [ValueError];
    a negative exponent inverts the base first and is a [ValueError] when
    the base is not invertible. *)
Definition py_pow3 (base exp modulus : Z) : result Z :=
  if modulus =? 0 then Raise ValueError
  else if exp <? 0 then
    if Z.gcd base modulus =? 1
    then Ok (pow_mod (Z.invmod base (Z.abs modulus)) (- exp) modulus)
    else Raise ValueError
  else Ok (pow_mod base exp modulus).

(** [int.to_bytes(length, "big")]: [OverflowError] for a negative value or one
    that does not fit. *)
Fixpoint be_bytes (length : nat) (z : Z) : list byte :=
  match length with
  | O => []
  | S n => be_bytes n (z / 256) ++ [byte.of_Z z]
  end.

Definition to_bytes (z : Z) (length : nat) : result (list byte) :=
  if (z <? 0) || (256 ^ Z.of_nat length <=? z) then Raise OverflowError
  else Ok (be_bytes length z).

(** [int.from_bytes(bs, "big")]. *)
Definition from_bytes (bs : list byte) : Z :=
  fold_left (fun acc b => acc * 256 + byte.unsigned b) bs 0.

(** [bs.lstrip(b"\x00")]. *)
Fixpoint lstrip0 (bs : list byte) : list byte :=
  match bs with
  | b :: tl => if byte.unsigned b =? 0 then lstrip0 tl else bs
  | [] => []
  end.

(** [bytes([...])]: every item must be in [range(256)]. *)
Fixpoint py_bytes (items : list Z) : result (list byte) :=
  match items with
  | [] => Ok []
  | i :: tl =>
      if (i <? 0) || (256 <=? i) then Raise ValueError
      else (rest <- py_bytes tl ;; Ok (byte.of_Z i :: rest))
  end.

(** [bs[0]]. *)
Definition first_byte (bs : list byte) : result Z :=
  match bs with
  | b :: _ => Ok (byte.unsigned b)
  | [] => Raise IndexError
  end.

(** The float produced by the true division [a / b] of two positive integers
    whose quotient is at least [2^52], given by its exact value: the quotient
    rounded to 53 significant bits, ties to even. *)
Definition py_truediv (a b : Z) : Z :=
  let e := Z.log2 (a / b) - 52 in
  let d := b * 2 ^ e in
  let q := a / d in
  let r := a mod d in
  let m := if (d <? 2 * r) || ((d =? 2 * r) && Z.odd q) then q + 1 else q in
  m * 2 ^ e.

(** ** Secp256k1 parameters *)

Definition EC_A : Z := 0.
Definition EC_B : Z := 7.
Definition EC_PRIME : Z :=
  2^256 - 2^32 - 2^9 - 2^8 - 2^7 - 2^6 - 2^4 - 2^0.
Definition G_X : Z :=
  0x79BE667EF9DCBBAC55A06295CE870B07029BFCDB2DCE28D959F2815B16F81798.
Definition G_Y : Z :=
  0x483ADA7726A3C4655DA4FBFC0E1108A8FD17B448A68554199C47D08FFB10D4B8.
Definition G_ORDER : Z :=
  0xFFFFFFFFFFFFFFFFFFFFFFFFFFFFFFFEBAAEDCE6AF48A03BBFD25E8CD0364141.

(** The generator doubled, [2 * G]. *)
Definition G2_X : Z :=
  0xC6047F9441ED7D6D3045406E95C07CD85C778E4B8CEF3CA7ABAC09B95C709EE5.
Definition G2_Y : Z :=
  0x1AE168FEA63DC339A3C58419466CEAEEF7F632653266D0E1236431A950CFE52A.

Arguments EC_PRIME : simpl never.
Arguments G_X : simpl never.
Arguments G_Y : simpl never.
Arguments G_ORDER : simpl never.

(** A primality test to run the model with, in place of the one outside the
    module: the Fermat test to base 2. *)
Definition fermat_test (p : Z) : bool :=
  (p =? 2) || ((2 <? p) && (pow_mod 2 (p - 1) p =? 1)).

(** ** Field elements *)

Inductive FieldClass : Type := ModularFieldIntegerC | S256IntegerC.

Record ModularFieldInteger : Type := mkFE {
  fcls : FieldClass;
  value : Z;
  prime : Z
}.

Section Crypto.

(** [btctoy.crypto.prime.is_prime], outside this module. *)
Variable is_prime : Z -> bool.

Definition ModularFieldInteger_init (c : FieldClass) (v p : Z)
  : result ModularFieldInteger :=
  if negb (is_prime p) then Raise ValueError
  else (r <- py_mod v p ;; Ok (mkFE c r p)).

Definition S256Integer_init (v p : Z) : result ModularFieldInteger :=
  if negb (p =? EC_PRIME) then Raise ValueError
  else ModularFieldInteger_init S256IntegerC v p.

(** [self.__class__(value, prime)]. *)
Definition FE_new (c : FieldClass) (v p : Z) : result ModularFieldInteger :=
  match c with
  | ModularFieldIntegerC => ModularFieldInteger_init ModularFieldIntegerC v p
  | S256IntegerC => S256Integer_init v p
  end.

(** [__eq__] between two field elements. *)
Definition ModularFieldInteger_eq (x y : ModularFieldInteger) : bool :=
  (value x =? value y) && (prime x =? prime y).

(** [==] between coordinates, either of which may be [None]. *)
Definition coord_eq (x y : option ModularFieldInteger) : bool :=
  match x, y with
  | Some u, Some v => ModularFieldInteger_eq u v
  | None, None => true
  | _, _ => false
  end.

Definition ModularFieldInteger_add (x y : ModularFieldInteger)
  : result ModularFieldInteger :=
  if negb (prime x =? prime y) then Raise TypeError
  else (v <- py_mod (value x + value y) (prime x) ;;
        FE_new (fcls x) v (prime x)).

Definition ModularFieldInteger_sub (x y : ModularFieldInteger)
  : result ModularFieldInteger :=
  if negb (prime x =? prime y) then Raise TypeError
  else (v <- py_mod (value x - value y) (prime x) ;;
        FE_new (fcls x) v (prime x)).

Definition ModularFieldInteger_mul (x y : ModularFieldInteger)
  : result ModularFieldInteger :=
  if negb (prime x =? prime y) then Raise TypeError
  else (v <- py_mod (value x * value y) (prime x) ;;
        FE_new (fcls x) v (prime x)).

Definition ModularFieldInteger_pow (x : ModularFieldInteger) (exponent : Z)
  : result ModularFieldInteger :=
  n <- py_mod exponent (prime x - 1) ;;
  v <- py_pow3 (value x) n (prime x) ;;
  FE_new (fcls x) v (prime x).

Definition ModularFieldInteger_truediv (x y : ModularFieldInteger)
  : result ModularFieldInteger :=
  if negb (prime x =? prime y) then Raise TypeError
  else (i <- py_pow3 (value y) (prime x - 2) (prime x) ;;
        v <- py_mod (value x * i) (prime x) ;;
        FE_new (fcls x) v (prime x)).

(** [coefficient * x] with an integer on the left. *)
Definition ModularFieldInteger_rmul (coefficient : Z) (x : ModularFieldInteger)
  : result ModularFieldInteger :=
  v <- py_mod (value x * coefficient) (prime x) ;;
  FE_new (fcls x) v (prime x).

(** ** Curve points *)

Inductive PointClass : Type := EllipcCurvePointC | S256PointC.

(** The constructor rejects a point with exactly one coordinate [None], so an
    object holds both coordinates or neither; [None] is the point at
    infinity. *)
Record EllipcCurvePoint : Type := mkPoint {
  pcls : PointClass;
  coords : option (ModularFieldInteger * ModularFieldInteger);
  pt_a : ModularFieldInteger;
  pt_b : ModularFieldInteger
}.

Definition pt_x (P : EllipcCurvePoint) : option ModularFieldInteger :=
  option_map fst (coords P).
Definition pt_y (P : EllipcCurvePoint) : option ModularFieldInteger :=
  option_map snd (coords P).

Definition is_on_elliptic_curve (x y a b : ModularFieldInteger) : result bool :=
  y2 <- ModularFieldInteger_pow y 2 ;;
  x3 <- ModularFieldInteger_pow x 3 ;;
  ax <- ModularFieldInteger_mul a x ;;
  t <- ModularFieldInteger_add x3 ax ;;
  rhs <- ModularFieldInteger_add t b ;;
  Ok (ModularFieldInteger_eq y2 rhs).

Definition EllipcCurvePoint_init (c : PointClass)
  (x y : option ModularFieldInteger) (a b : ModularFieldInteger)
  : result EllipcCurvePoint :=
  match x, y with
  | None, None => Ok (mkPoint c None a b)
  | Some xv, Some yv =>
      on <- is_on_elliptic_curve xv yv a b ;;
      if on then Ok (mkPoint c (Some (xv, yv)) a b) else Raise ValueError
  | _, _ => Raise ValueError
  end.

(** The module constants [A = S256Integer(EC_A)] and [B = S256Integer(EC_B)]. *)
Definition A : ModularFieldInteger :=
  mkFE S256IntegerC (EC_A mod EC_PRIME) EC_PRIME.
Definition B : ModularFieldInteger :=
  mkFE S256IntegerC (EC_B mod EC_PRIME) EC_PRIME.

(** [S256Point.__init__] called with field elements or [None]. *)
Definition S256Point_init (x y : option ModularFieldInteger)
  (a b : ModularFieldInteger) : result EllipcCurvePoint :=
  if negb (ModularFieldInteger_eq a A) then Raise ValueError
  else if negb (ModularFieldInteger_eq b B) then Raise ValueError
  else EllipcCurvePoint_init S256PointC x y A B.

(** [S256Point.__init__] called with two integers, each wrapped in
    [S256Integer] first. *)
Definition S256Point_of_ints (x y : Z) (a b : ModularFieldInteger)
  : result EllipcCurvePoint :=
  if negb (ModularFieldInteger_eq a A) then Raise ValueError
  else if negb (ModularFieldInteger_eq b B) then Raise ValueError
  else (xv <- S256Integer_init x EC_PRIME ;;
        yv <- S256Integer_init y EC_PRIME ;;
        EllipcCurvePoint_init S256PointC (Some xv) (Some yv) A B).

(** [self.__class__(x, y, a, b)]. *)
Definition Point_new (c : PointClass) (x y : option ModularFieldInteger)
  (a b : ModularFieldInteger) : result EllipcCurvePoint :=
  match c with
  | EllipcCurvePointC => EllipcCurvePoint_init EllipcCurvePointC x y a b
  | S256PointC => S256Point_init x y a b
  end.

Definition EllipcCurvePoint_eq (P Q : EllipcCurvePoint) : bool :=
  coord_eq (pt_x P) (pt_x Q) && coord_eq (pt_y P) (pt_y Q)
  && ModularFieldInteger_eq (pt_a P) (pt_a Q)
  && ModularFieldInteger_eq (pt_b P) (pt_b Q).

(** [EllipcCurvePoint.__add__].  The result is [None] when the body falls off
    its end without reaching a [return]. *)
Definition EllipcCurvePoint_add (self other : EllipcCurvePoint)
  : result (option EllipcCurvePoint) :=
  if negb (ModularFieldInteger_eq (pt_a self) (pt_a other))
     || negb (ModularFieldInteger_eq (pt_b self) (pt_b other))
  then Raise TypeError
  else
    match coords self, coords other with
    | None, _ => Ok (Some other)
    | Some _, None => Ok (Some self)
    | Some (x1, y1), Some (x2, y2) =>
        if ModularFieldInteger_eq x1 x2 && negb (ModularFieldInteger_eq y1 y2)
        then
          (P <- Point_new (pcls self) None None (pt_a self) (pt_b self) ;;
           Ok (Some P))
        else if negb (ModularFieldInteger_eq x1 x2) then
          (dy <- ModularFieldInteger_sub y2 y1 ;;
           dx <- ModularFieldInteger_sub x2 x1 ;;
           s <- ModularFieldInteger_truediv dy dx ;;
           s2 <- ModularFieldInteger_pow s 2 ;;
           t <- ModularFieldInteger_sub s2 x1 ;;
           x3 <- ModularFieldInteger_sub t x2 ;;
           d <- ModularFieldInteger_sub x1 x3 ;;
           m <- ModularFieldInteger_mul s d ;;
           y3 <- ModularFieldInteger_sub m y1 ;;
           P <- Point_new (pcls self) (Some x3) (Some y3)
                  (pt_a self) (pt_b self) ;;
           Ok (Some P))
        else
          (vertical <-
             (if EllipcCurvePoint_eq self other
              then (zero <- ModularFieldInteger_rmul 0 x1 ;;
                    Ok (ModularFieldInteger_eq y1 zero))
              else Ok false) ;;
           if vertical then
             (P <- Point_new (pcls self) None None (pt_a self) (pt_b self) ;;
              Ok (Some P))
           else if EllipcCurvePoint_eq self other then
             (x1sq <- ModularFieldInteger_pow x1 2 ;;
              n3 <- ModularFieldInteger_rmul 3 x1sq ;;
              num <- ModularFieldInteger_add n3 (pt_a self) ;;
              den <- ModularFieldInteger_rmul 2 y1 ;;
              s <- ModularFieldInteger_truediv num den ;;
              s2 <- ModularFieldInteger_pow s 2 ;;
              x2' <- ModularFieldInteger_rmul 2 x1 ;;
              x3 <- ModularFieldInteger_sub s2 x2' ;;
              d <- ModularFieldInteger_sub x1 x3 ;;
              m <- ModularFieldInteger_mul s d ;;
              y3 <- ModularFieldInteger_sub m y1 ;;
              P <- Point_new (pcls self) (Some x3) (Some y3)
                     (pt_a self) (pt_b self) ;;
              Ok (Some P))
           else Ok None)
    end.

(** [p + q] where either operand may be the [None] a previous addition
    returned. *)
Definition py_add (p q : option EllipcCurvePoint)
  : result (option EllipcCurvePoint) :=
  match p, q with
  | Some P, Some Q => EllipcCurvePoint_add P Q
  | Some _, None => Raise AttributeError
  | None, _ => Raise TypeError
  end.

(** The [while coef:] loop of [EllipcCurvePoint.__rmul__]. *)
Fixpoint rmul_loop (fuel : nat) (coef : Z)
  (current acc : option EllipcCurvePoint) : result (option EllipcCurvePoint) :=
  if coef =? 0 then Ok acc
  else
    match fuel with
    | O => OutOfFuel
    | S fuel' =>
        acc' <- (if Z.land coef 1 =? 0 then Ok acc else py_add acc current) ;;
        current' <- py_add current current ;;
        rmul_loop fuel' (Z.shiftr coef 1) current' acc'
    end.

Definition EllipcCurvePoint_rmul (fuel : nat) (coefficient : Z)
  (self : EllipcCurvePoint) : result (option EllipcCurvePoint) :=
  acc <- Point_new (pcls self) None None (pt_a self) (pt_b self) ;;
  rmul_loop fuel coefficient (Some self) (Some acc).

Definition S256Point_rmul (fuel : nat) (coefficient : Z)
  (self : EllipcCurvePoint) : result (option EllipcCurvePoint) :=
  coef <- py_mod coefficient G_ORDER ;;
  EllipcCurvePoint_rmul fuel coef self.

(** [coefficient * P], dispatched on the class of [P]. *)
Definition Point_rmul (fuel : nat) (coefficient : Z) (P : EllipcCurvePoint)
  : result (option EllipcCurvePoint) :=
  match pcls P with
  | EllipcCurvePointC => EllipcCurvePoint_rmul fuel coefficient P
  | S256PointC => S256Point_rmul fuel coefficient P
  end.

(** The module constant [G = S256Point(G_X, G_Y)]. *)
Definition G : EllipcCurvePoint :=
  mkPoint S256PointC
    (Some (mkFE S256IntegerC (G_X mod EC_PRIME) EC_PRIME,
           mkFE S256IntegerC (G_Y mod EC_PRIME) EC_PRIME)) A B.

(** ** Signatures *)

Record Signature : Type := mkSignature { sig_r : Z; sig_s : Z }.

(** [p.x.value] for the result [p] of a point computation. *)
Definition x_value (p : option EllipcCurvePoint) : result Z :=
  match p with
  | Some P =>
      match coords P with
      | Some (xv, _) => Ok (value xv)
      | None => Raise AttributeError
      end
  | None => Raise AttributeError
  end.

Definition S256Point_verify (fuel : nat) (self : EllipcCurvePoint) (z : Z)
  (sig : Signature) : result bool :=
  s_inv <- py_pow3 (sig_s sig) (G_ORDER - 2) G_ORDER ;;
  u <- py_mod (z * s_inv) G_ORDER ;;
  v <- py_mod (sig_r sig * s_inv) G_ORDER ;;
  uG <- Point_rmul fuel u G ;;
  vP <- Point_rmul fuel v self ;;
  total <- py_add uG vP ;;
  tx <- x_value total ;;
  Ok (tx =? sig_r sig).

Definition S256Point_sec (self : EllipcCurvePoint) (compressed : bool)
  : result (list byte) :=
  match coords self with
  | None => Raise AttributeError
  | Some (xv, yv) =>
      if compressed then
        (parity <- py_mod (value yv) 2 ;;
         xb <- to_bytes (value xv) 32 ;;
         Ok ((if parity =? 0 then Byte.x02 else Byte.x03) :: xb))
      else
        (xb <- to_bytes (value xv) 32 ;;
         yb <- to_bytes (value yv) 32 ;;
         Ok (Byte.x04 :: xb ++ yb))
  end.

(** [S256Point.parse]: the body is [pass], so every call returns [None]. *)
Definition S256Point_parse (sec_bin : list byte) : option EllipcCurvePoint :=
  None.

(** One INTEGER field of the DER encoding. *)
Definition der_integer (n : Z) : result (list byte) :=
  nbin <- to_bytes n 32 ;;
  let nbin := lstrip0 nbin in
  hd <- first_byte nbin ;;
  let nbin := if Z.land hd 0x80 =? 0 then nbin else Byte.x00 :: nbin in
  header <- py_bytes [2; Z.of_nat (length nbin)] ;;
  Ok (header ++ nbin).

Definition Signature_der (self : Signature) : result (list byte) :=
  rfield <- der_integer (sig_r self) ;;
  sfield <- der_integer (sig_s self) ;;
  let res := rfield ++ sfield in
  header <- py_bytes [0x30; Z.of_nat (length res)] ;;
  Ok (header ++ res).

(** [stream.read(1)[0]] on a [BytesIO] holding [stream]; the rest of the
    stream is returned with the byte. *)
Definition read_byte (stream : list byte) : result (Z * list byte) :=
  match stream with
  | b :: rest => Ok (byte.unsigned b, rest)
  | [] => Raise IndexError
  end.

(** [stream.read(n)]: at most [n] bytes. *)
Definition read (n : Z) (stream : list byte) : list byte * list byte :=
  (firstn (Z.to_nat n) stream, skipn (Z.to_nat n) stream).

Definition Signature_parse (signature_bin : list byte) : result Signature :=
  let total := Z.of_nat (length signature_bin) in
  '(compound, st) <- read_byte signature_bin ;;
  if negb (compound =? 0x30) then Raise SyntaxError else
  '(len, st) <- read_byte st ;;
  if negb (len + 2 =? total) then Raise SyntaxError else
  '(marker, st) <- read_byte st ;;
  if negb (marker =? 0x02) then Raise SyntaxError else
  '(rlength, st) <- read_byte st ;;
  let '(rbin, st) := read rlength st in
  let r := from_bytes rbin in
  '(marker, st) <- read_byte st ;;
  if negb (marker =? 0x02) then Raise SyntaxError else
  '(slength, st) <- read_byte st ;;
  let '(sbin, st) := read slength st in
  let s := from_bytes sbin in
  if negb (total =? 6 + rlength + slength) then Raise SyntaxError
  else Ok (mkSignature r s).

(** ** Private keys *)

(** [hmac.new(key, msg, hashlib.sha256).digest()]. *)
Variable hmac_sha256 : list byte -> list byte -> list byte.

Record PrivateKey : Type := mkPrivateKey {
  secret : Z;
  point : option EllipcCurvePoint
}.

Definition PrivateKey_init (fuel : nat) (sec : Z) : result PrivateKey :=
  P <- Point_rmul fuel sec G ;;
  Ok (mkPrivateKey sec P).

(** The [while True:] loop of [deterministic_k]. *)
Fixpoint deterministic_k_loop (fuel : nat) (k v : list byte) : result Z :=
  match fuel with
  | O => OutOfFuel
  | S fuel' =>
      let v := hmac_sha256 k v in
      let candidate := from_bytes v in
      if (1 <=? candidate) && (candidate <? G_ORDER) then Ok candidate
      else
        let k := hmac_sha256 k (v ++ [Byte.x00]) in
        let v := hmac_sha256 k v in
        deterministic_k_loop fuel' k v
  end.

Definition PrivateKey_deterministic_k (fuel : nat) (self : PrivateKey) (z : Z)
  : result Z :=
  let k := repeat Byte.x00 32 in
  let v := repeat Byte.x01 32 in
  let z := if z >? G_ORDER then z - G_ORDER else z in
  z_bytes <- to_bytes z 32 ;;
  secret_bytes <- to_bytes (secret self) 32 ;;
  let k := hmac_sha256 k (v ++ [Byte.x00] ++ secret_bytes ++ z_bytes) in
  let v := hmac_sha256 k v in
  let k := hmac_sha256 k (v ++ [Byte.x01] ++ secret_bytes ++ z_bytes) in
  let v := hmac_sha256 k v in
  deterministic_k_loop fuel k v.

(** The float [G_ORDER / 2] that [sign] compares [s] with. *)
Definition G_ORDER_half : Z := py_truediv G_ORDER 2.

(** The body of [sign] after the nonce [k] has been drawn. *)
Definition sign_with_nonce (fuel : nat) (self : PrivateKey) (z k : Z)
  : result Signature :=
  kG <- Point_rmul fuel k G ;;
  r <- x_value kG ;;
  k_inv <- py_pow3 k (G_ORDER - 2) G_ORDER ;;
  s <- py_mod ((z + r * secret self) * k_inv) G_ORDER ;;
  let s := if s >? G_ORDER_half then G_ORDER - s else s in
  Ok (mkSignature r s).

Definition PrivateKey_sign (fuel : nat) (self : PrivateKey) (z : Z)
  : result Signature :=
  k <- PrivateKey_deterministic_k fuel self z ;;
  sign_with_nonce fuel self z k.

(** ** Well-formed values *)

(** The constructor of an [S256Integer] accepts the secp256k1 prime only. *)
Definition class_ok (c : FieldClass) (p : Z) : Prop :=
  c = S256IntegerC -> p = EC_PRIME.

(** What holds of a field element the constructor returned, when the
    primality test accepts no modulus below 2: the test accepted the modulus,
    the value is reduced, and an [S256Integer] has the secp256k1 prime. *)
Definition field_element_ok (e : ModularFieldInteger) : Prop :=
  1 < prime e
  /\ is_prime (prime e) = true
  /\ 0 <= value e < prime e
  /\ class_ok (fcls e) (prime e).


(** An operation keeps the invariant: on well-formed operands of one field
    it returns a well-formed element of that field. *)
Definition preserves_invariant
  (op : ModularFieldInteger -> ModularFieldInteger
        -> result ModularFieldInteger) : Prop :=
  forall x y : ModularFieldInteger,
    field_element_ok x -> field_element_ok y -> prime x = prime y ->
    exists e, op x y = Ok e /\ field_element_ok e /\ prime e = prime x.

(** An [S256Point] object: its constructor stores the module constants [A]
    and [B] as coefficients. *)
Definition S256Point_object (P : EllipcCurvePoint) : Prop :=
  pcls P = S256PointC /\ pt_a P = A /\ pt_b P = B.

(** The point at infinity of secp256k1. *)
Definition S256_infinity : EllipcCurvePoint := mkPoint S256PointC None A B.

(** The call came back, with a value or an exception. *)
Definition halts {T : Type} (m : result T) : Prop := m <> OutOfFuel.


(** What holds of a point object: its coefficients and coordinates are
    well-formed field elements, and its constructor, called on its own
    fields, accepts them and returns the object. *)
Definition point_ok (P : EllipcCurvePoint) : Prop :=
  field_element_ok (pt_a P)
  /\ field_element_ok (pt_b P)
  /\ (forall x y, coords P = Some (x, y)
                  -> field_element_ok x /\ field_element_ok y)
  /\ Point_new (pcls P) (pt_x P) (pt_y P) (pt_a P) (pt_b P) = Ok P.

(** Two points on the same curve: [__add__] does not raise [TypeError]. *)
Definition same_curve (P Q : EllipcCurvePoint) : Prop :=
  ModularFieldInteger_eq (pt_a P) (pt_a Q) = true
  /\ ModularFieldInteger_eq (pt_b P) (pt_b Q) = true.

(** The two cases in which the line through the operands is vertical:
    equal [x] with different [y], and a doubling with [y = 0]. *)
Definition vertical (x1 y1 x2 y2 : ModularFieldInteger) : bool :=
  ModularFieldInteger_eq x1 x2
  && (negb (ModularFieldInteger_eq y1 y2) || (value y1 =? 0)).

(** The slope formulas, with division as multiplication by the
    [(p - 2)]-th power. *)
Definition chord_slope (p x1 y1 x2 y2 : Z) : Z :=
  ((y2 - y1) * (x2 - x1) ^ (p - 2)) mod p.

Definition tangent_slope (p a x1 y1 : Z) : Z :=
  ((3 * x1 ^ 2 + a) * (2 * y1) ^ (p - 2)) mod p.

Definition sum_x (p s x1 x2 : Z) : Z := (s ^ 2 - x1 - x2) mod p.

Definition sum_y (p s x1 y1 x3 : Z) : Z := (s * (x1 - x3) - y1) mod p.


(** The coordinates [__add__] computes for two points with different [x],
    operation by operation. *)
Definition chord_sum (p x1 y1 x2 y2 : Z) : Z * Z :=
  let dy := (y2 - y1) mod p in
  let dx := (x2 - x1) mod p in
  let s := (dy * pow_mod dx (p - 2) p) mod p in
  let s2 := pow_mod s (2 mod (p - 1)) p in
  let t := (s2 - x1) mod p in
  let x3 := (t - x2) mod p in
  let d := (x1 - x3) mod p in
  let m := (s * d) mod p in
  (x3, (m - y1) mod p).

(** The coordinates [__add__] computes when it doubles a point. *)
Definition tangent_sum (p a x1 y1 : Z) : Z * Z :=
  let x1sq := pow_mod x1 (2 mod (p - 1)) p in
  let n3 := (x1sq * 3) mod p in
  let num := (n3 + a) mod p in
  let den := (y1 * 2) mod p in
  let s := (num * pow_mod den (p - 2) p) mod p in
  let s2 := pow_mod s (2 mod (p - 1)) p in
  let x2' := (x1 * 2) mod p in
  let x3 := (s2 - x2') mod p in
  let d := (x1 - x3) mod p in
  let m := (s * d) mod p in
  (x3, (m - y1) mod p).

(** ** A small curve to run the model on *)

(** The curve y^2 = x^3 + x + 1 over the field of 5 elements. *)
Definition F5 (v : Z) : ModularFieldInteger := mkFE ModularFieldIntegerC v 5.
Definition curve5 (x y : Z) : EllipcCurvePoint :=
  mkPoint EllipcCurvePointC (Some (F5 x, F5 y)) (F5 1) (F5 1).

(** The curve y^2 = x^3 + x over the field of 3 elements. *)
Definition F3 (v : Z) : ModularFieldInteger := mkFE ModularFieldIntegerC v 3.
Definition curve3 (x y : Z) : EllipcCurvePoint :=
  mkPoint EllipcCurvePointC (Some (F3 x, F3 y)) (F3 1) (F3 0).


(** ** Shapes of encodings *)

(** The bytes of a DER signature whose two INTEGER bodies are [rbody] and
    [sbody]: SEQUENCE tag and length, then each body behind its INTEGER tag
    and length. *)
Definition der_layout (rbody sbody : list byte) : list byte :=
  byte.of_Z 0x30
  :: byte.of_Z (Z.of_nat (4 + length rbody + length sbody))
  :: (byte.of_Z 2 :: byte.of_Z (Z.of_nat (length rbody)) :: rbody)
  ++ (byte.of_Z 2 :: byte.of_Z (Z.of_nat (length sbody)) :: sbody).

(** The body of a positive INTEGER in its shortest form: the first byte has
    its high bit clear, and is zero only in front of a byte with the high
    bit set. *)
Definition der_minimal (body : list byte) : Prop :=
  match body with
  | [] => False
  | b0 :: rest =>
      byte.unsigned b0 < 0x80
      /\ (byte.unsigned b0 = 0 ->
          match rest with
          | b1 :: _ => 0x80 <= byte.unsigned b1
          | [] => False
          end)
  end.


(** ** Points of one curve *)

(** [R] is a point object of the class and with the coefficients of [S]. *)
Definition on_curve_of (S R : EllipcCurvePoint) : Prop :=
  point_ok R /\ pcls R = pcls S /\ pt_a R = pt_a S /\ pt_b R = pt_b S.

(** * Properties *)

(** ** The result monad *)

Lemma bind_Ok_inv {T U : Type} (m : result T) (f : T -> result U) (u : U) :
  bind m f = Ok u -> exists t, m = Ok t /\ f t = Ok u.
Proof. destruct m; simpl; intros H; try discriminate; eauto. Qed.

(** ** Modular exponentiation *)

Lemma pow_mod_pos_spec (b : Z) (e : positive) (m : Z) :
  pow_mod_pos b e m = b ^ Zpos e mod m.
Proof.
  induction e as [e IH | e IH | ]; simpl pow_mod_pos.
  - rewrite IH, Pos2Z.inj_xI.
    replace (2 * Z.pos e + 1) with (Z.pos e + Z.pos e + 1) by lia.
    rewrite !Z.pow_add_r, Z.pow_1_r by lia.
    rewrite <- Zmult_mod, Zmult_mod_idemp_l. reflexivity.
  - rewrite IH, Pos2Z.inj_xO.
    replace (2 * Z.pos e) with (Z.pos e + Z.pos e) by lia.
    rewrite Z.pow_add_r by lia. rewrite <- Zmult_mod. reflexivity.
  - rewrite Z.pow_1_r. reflexivity.
Qed.

Lemma pow_mod_spec (b e m : Z) : 0 <= e -> pow_mod b e m = b ^ e mod m.
Proof.
  destruct e as [ | e | e]; intros He; simpl pow_mod.
  - reflexivity.
  - apply pow_mod_pos_spec.
  - lia.
Qed.

Lemma pow_mod_range (b e m : Z) : 0 < m -> 0 <= pow_mod b e m < m.
Proof.
  intros Hm. destruct e as [ | e | e]; simpl pow_mod;
    try (apply Z.mod_pos_bound; exact Hm).
  rewrite pow_mod_pos_spec. apply Z.mod_pos_bound; exact Hm.
Qed.

(** ** Byte strings *)

Lemma from_bytes_snoc (bs : list byte) (b : byte) :
  from_bytes (bs ++ [b]) = from_bytes bs * 256 + byte.unsigned b.
Proof. unfold from_bytes. rewrite fold_left_app. reflexivity. Qed.

Lemma length_be_bytes (n : nat) (z : Z) : length (be_bytes n z) = n.
Proof.
  revert z. induction n as [ | n IH]; intros z; simpl.
  - reflexivity.
  - rewrite length_app, IH. simpl. lia.
Qed.

Lemma from_bytes_be_bytes (n : nat) (z : Z) :
  0 <= z < 256 ^ Z.of_nat n -> from_bytes (be_bytes n z) = z.
Proof.
  revert z. induction n as [ | n IH]; intros z Hz.
  - simpl in *. change (from_bytes []) with 0. lia.
  - cbn [be_bytes]. rewrite from_bytes_snoc, byte.unsigned_of_Z.
    unfold byte.wrap. change (2 ^ 8) with 256.
    rewrite Nat2Z.inj_succ, Z.pow_succ_r in Hz by lia.
    rewrite IH.
    + pose proof (Z.div_mod z 256). lia.
    + split.
      * apply Z.div_pos; lia.
      * apply Z.div_lt_upper_bound; lia.
Qed.

Lemma from_bytes_zero_head (b : byte) (bs : list byte) :
  byte.unsigned b = 0 -> from_bytes (b :: bs) = from_bytes bs.
Proof. intros Hb. unfold from_bytes. simpl. rewrite Hb. reflexivity. Qed.

Lemma from_bytes_lstrip0 (bs : list byte) :
  from_bytes (lstrip0 bs) = from_bytes bs.
Proof.
  induction bs as [ | b bs IH]; simpl.
  - reflexivity.
  - destruct (byte.unsigned b =? 0) eqn:Hb.
    + apply Z.eqb_eq in Hb. rewrite from_bytes_zero_head by exact Hb. exact IH.
    + reflexivity.
Qed.

Lemma length_lstrip0 (bs : list byte) : (length (lstrip0 bs) <= length bs)%nat.
Proof.
  induction bs as [ | b bs IH]; simpl.
  - lia.
  - destruct (byte.unsigned b =? 0); simpl; lia.
Qed.

Lemma to_bytes_in_range (z : Z) (n : nat) :
  0 <= z < 256 ^ Z.of_nat n -> to_bytes z n = Ok (be_bytes n z).
Proof.
  intros Hz. unfold to_bytes.
  destruct (z <? 0) eqn:H1; [apply Z.ltb_lt in H1; lia | ].
  destruct (256 ^ Z.of_nat n <=? z) eqn:H2; [apply Z.leb_le in H2; lia | ].
  reflexivity.
Qed.

Lemma to_bytes_out_of_range (z : Z) (n : nat) :
  z < 0 \/ 256 ^ Z.of_nat n <= z -> to_bytes z n = Raise OverflowError.
Proof.
  intros Hz. unfold to_bytes.
  destruct (z <? 0) eqn:H1; [reflexivity | ].
  destruct (256 ^ Z.of_nat n <=? z) eqn:H2; [reflexivity | ].
  apply Z.ltb_ge in H1. apply Z.leb_gt in H2. lia.
Qed.

Lemma unsigned_of_Z_small (z : Z) :
  0 <= z < 256 -> byte.unsigned (byte.of_Z z) = z.
Proof.
  intros Hz. rewrite byte.unsigned_of_Z. unfold byte.wrap.
  apply Z.mod_small. change (2 ^ 8) with 256. exact Hz.
Qed.

(** ** DER encoding *)

(** One INTEGER field of a value in range: tag, length, and a body of at
    most 33 bytes that reads back as the value. *)
Lemma der_integer_in_range (n : Z) :
  1 <= n < 2 ^ 256 ->
  exists body,
    der_integer n
    = Ok (byte.of_Z 2 :: byte.of_Z (Z.of_nat (length body)) :: body)
    /\ (1 <= length body <= 33)%nat
    /\ from_bytes body = n.
Proof.
  intros Hn. unfold der_integer.
  rewrite to_bytes_in_range by (change (256 ^ Z.of_nat 32) with (2 ^ 256); lia).
  cbn [bind].
  assert (Hfrom : from_bytes (lstrip0 (be_bytes 32 n)) = n).
  { rewrite from_bytes_lstrip0. apply from_bytes_be_bytes.
    change (256 ^ Z.of_nat 32) with (2 ^ 256). lia. }
  assert (Hlen : (length (lstrip0 (be_bytes 32 n)) <= 32)%nat).
  { pose proof (length_lstrip0 (be_bytes 32 n)) as H.
    rewrite length_be_bytes in H. exact H. }
  destruct (lstrip0 (be_bytes 32 n)) as [ | b0 rest] eqn:Hstrip.
  { change (from_bytes []) with 0 in Hfrom. lia. }
  cbn [first_byte bind].
  set (body := if Z.land (byte.unsigned b0) 128 =? 0
               then b0 :: rest else Byte.x00 :: b0 :: rest).
  assert (Hbody : (1 <= length body <= 33)%nat).
  { subst body. cbn [length] in Hlen.
    destruct (Z.land (byte.unsigned b0) 128 =? 0); cbn [length]; lia. }
  assert (Hval : from_bytes body = n).
  { subst body. destruct (Z.land (byte.unsigned b0) 128 =? 0).
    - exact Hfrom.
    - rewrite from_bytes_zero_head by reflexivity. exact Hfrom. }
  exists body. split; [ | split; assumption].
  unfold py_bytes.
  change ((2 <? 0) || (256 <=? 2)) with false. cbv iota.
  destruct ((Z.of_nat (length body) <? 0) || (256 <=? Z.of_nat (length body)))
    eqn:Hb.
  { apply orb_true_iff in Hb. destruct Hb as [Hb | Hb];
      [apply Z.ltb_lt in Hb | apply Z.leb_le in Hb]; lia. }
  reflexivity.
Qed.

Lemma der_integer_zero : der_integer 0 = Raise IndexError.
Proof. reflexivity. Qed.

Lemma der_integer_overflow (n : Z) :
  n < 0 \/ 2 ^ 256 <= n -> der_integer n = Raise OverflowError.
Proof.
  intros Hn. unfold der_integer.
  rewrite to_bytes_out_of_range; [reflexivity | ].
  change (256 ^ Z.of_nat 32) with (2 ^ 256). exact Hn.
Qed.


Lemma Signature_der_in_range (r s : Z) :
  1 <= r < 2 ^ 256 -> 1 <= s < 2 ^ 256 ->
  exists rbody sbody,
    Signature_der (mkSignature r s)
    = Ok (byte.of_Z 0x30
          :: byte.of_Z (Z.of_nat (4 + length rbody + length sbody))
          :: (byte.of_Z 2 :: byte.of_Z (Z.of_nat (length rbody)) :: rbody)
          ++ (byte.of_Z 2 :: byte.of_Z (Z.of_nat (length sbody)) :: sbody))
    /\ (1 <= length rbody <= 33)%nat /\ from_bytes rbody = r
    /\ (1 <= length sbody <= 33)%nat /\ from_bytes sbody = s.
Proof.
  intros Hr Hs.
  destruct (der_integer_in_range r Hr) as (rbody & Er & Lr & Vr).
  destruct (der_integer_in_range s Hs) as (sbody & Es & Ls & Vs).
  exists rbody, sbody. repeat split; try assumption; try lia.
  unfold Signature_der. cbn [sig_r sig_s]. rewrite Er, Es. cbn [bind].
  set (res := (byte.of_Z 2 :: byte.of_Z (Z.of_nat (length rbody)) :: rbody)
              ++ byte.of_Z 2 :: byte.of_Z (Z.of_nat (length sbody)) :: sbody).
  assert (Hlen : length res = (4 + length rbody + length sbody)%nat).
  { subst res. rewrite length_app. cbn [length]. lia. }
  rewrite Hlen. unfold py_bytes.
  change ((48 <? 0) || (256 <=? 48)) with false. cbv iota.
  destruct ((Z.of_nat (4 + length rbody + length sbody) <? 0)
            || (256 <=? Z.of_nat (4 + length rbody + length sbody))) eqn:Hb.
  { apply orb_true_iff in Hb. destruct Hb as [Hb | Hb];
      [apply Z.ltb_lt in Hb | apply Z.leb_le in Hb]; lia. }
  reflexivity.
Qed.

Lemma read_exact (n : nat) (front back : list byte) :
  length front = n -> read (Z.of_nat n) (front ++ back) = (front, back).
Proof.
  intros Hn. unfold read. rewrite Nat2Z.id. subst n.
  rewrite firstn_app, skipn_app, Nat.sub_diag, firstn_all, skipn_all.
  simpl. rewrite app_nil_r. reflexivity.
Qed.

Lemma read_all (bs : list byte) : read (Z.of_nat (length bs)) bs = (bs, []).
Proof.
  pose proof (read_exact (length bs) bs [] eq_refl) as H.
  rewrite app_nil_r in H. exact H.
Qed.

Lemma Signature_parse_der_layout (rbody sbody : list byte) :
  (length rbody <= 33)%nat -> (length sbody <= 33)%nat ->
  Signature_parse
    (byte.of_Z 0x30
     :: byte.of_Z (Z.of_nat (4 + length rbody + length sbody))
     :: (byte.of_Z 2 :: byte.of_Z (Z.of_nat (length rbody)) :: rbody)
     ++ (byte.of_Z 2 :: byte.of_Z (Z.of_nat (length sbody)) :: sbody))
  = Ok (mkSignature (from_bytes rbody) (from_bytes sbody)).
Proof.
  intros Lr Ls.
  match goal with |- Signature_parse ?l = _ => set (bin := l) end.
  unfold Signature_parse.
  assert (Htotal : Z.of_nat (length bin)
                   = 6 + Z.of_nat (length rbody) + Z.of_nat (length sbody)).
  { subst bin. cbn [length app]. rewrite length_app. cbn [length]. lia. }
  set (total := Z.of_nat (length bin)) in *. subst bin.
  cbn [read_byte bind app].
  rewrite !unsigned_of_Z_small by lia.
  change (48 =? 48) with true. change (2 =? 2) with true. cbn [negb].
  replace (Z.of_nat (4 + length rbody + length sbody) + 2 =? total) with true
    by (symmetry; apply Z.eqb_eq; lia).
  cbn [negb].
  rewrite (read_exact (length rbody) rbody) by reflexivity.
  cbn [read_byte bind].
  rewrite !unsigned_of_Z_small by lia.
  change (2 =? 2) with true. cbn [negb].
  rewrite (read_all sbody).
  replace (total =? 6 + Z.of_nat (length rbody) + Z.of_nat (length sbody))
    with true by (symmetry; apply Z.eqb_eq; lia).
  reflexivity.
Qed.

(** C4.  DER round trip: for every pair [(r, s)] with [1 <= r, s < 2^256]
    (every valid signature pair lies in that range), [der] returns an encoding
    and [parse] of that encoding returns a signature with the same [r] and
    [s].  The range covers the values that get a [0x00] sign-padding byte and
    those whose 32-byte form starts with zero bytes. *)
Theorem der_round_trip (r s : Z) :
  1 <= r < 2 ^ 256 -> 1 <= s < 2 ^ 256 ->
  exists signature_bin,
    Signature_der (mkSignature r s) = Ok signature_bin
    /\ Signature_parse signature_bin = Ok (mkSignature r s).
Proof.
  intros Hr Hs.
  destruct (Signature_der_in_range r s Hr Hs)
    as (rbody & sbody & Eder & Lr & Vr & Ls & Vs).
  eexists. split; [exact Eder | ].
  rewrite Signature_parse_der_layout by lia.
  rewrite Vr, Vs. reflexivity.
Qed.

(** C10.  [der] returns exactly when [1 <= r < 2^256] and [1 <= s < 2^256]:
    in that range it returns an encoding; a zero [r] or [s] raises
    [IndexError] (the first byte of the empty stripped string is read); an
    [r] or [s] that is negative or does not fit in 32 bytes raises
    [OverflowError].  [r] is encoded before [s]. *)
Theorem der_precondition (sig : Signature) :
  (1 <= sig_r sig < 2 ^ 256 /\ 1 <= sig_s sig < 2 ^ 256
   -> returns (Signature_der sig))
  /\ (sig_r sig = 0 -> Signature_der sig = Raise IndexError)
  /\ (sig_r sig < 0 \/ 2 ^ 256 <= sig_r sig
      -> Signature_der sig = Raise OverflowError)
  /\ (1 <= sig_r sig < 2 ^ 256 -> sig_s sig = 0
      -> Signature_der sig = Raise IndexError)
  /\ (1 <= sig_r sig < 2 ^ 256 -> sig_s sig < 0 \/ 2 ^ 256 <= sig_s sig
      -> Signature_der sig = Raise OverflowError).
Proof.
  destruct sig as [r s]. cbn [sig_r sig_s].
  split; [ | split; [ | split; [ | split]]].
  - intros [Hr Hs].
    destruct (Signature_der_in_range r s Hr Hs) as (rb & sb & E & _).
    eexists. exact E.
  - intros ->. reflexivity.
  - intros Hr. unfold Signature_der. cbn [sig_r].
    rewrite der_integer_overflow by exact Hr. reflexivity.
  - intros Hr ->. unfold Signature_der. cbn [sig_r sig_s].
    destruct (der_integer_in_range r Hr) as (rb & E & _).
    rewrite E. reflexivity.
  - intros Hr Hs. unfold Signature_der. cbn [sig_r sig_s].
    destruct (der_integer_in_range r Hr) as (rb & E & _).
    rewrite E. cbn [bind]. rewrite der_integer_overflow by exact Hs.
    reflexivity.
Qed.


(** ** Field elements *)

Lemma py_mod_nonzero (n m : Z) : m <> 0 -> py_mod n m = Ok (n mod m).
Proof.
  intros Hm. unfold py_mod. destruct (m =? 0) eqn:E; [ | reflexivity].
  apply Z.eqb_eq in E. contradiction.
Qed.

Lemma py_pow3_nonneg (base e m : Z) :
  m <> 0 -> 0 <= e -> py_pow3 base e m = Ok (pow_mod base e m).
Proof.
  intros Hm He. unfold py_pow3.
  destruct (m =? 0) eqn:E; [apply Z.eqb_eq in E; contradiction | ].
  destruct (e <? 0) eqn:E'; [apply Z.ltb_lt in E'; lia | reflexivity].
Qed.

Lemma FE_new_rejects (c : FieldClass) (v p : Z) :
  is_prime p = false -> FE_new c v p = Raise ValueError.
Proof.
  intros Hp. destruct c; simpl.
  - unfold ModularFieldInteger_init. rewrite Hp. reflexivity.
  - unfold S256Integer_init, ModularFieldInteger_init.
    destruct (p =? EC_PRIME); cbn [negb]; [rewrite Hp | ]; reflexivity.
Qed.

(** What each operation returns in a field whose modulus [p > 1] the
    primality test accepts.  The class of the result is the class of the
    left operand, whose constructor must accept [p]. *)
Section FieldOperations.

Variable p : Z.
Hypothesis Hp : 1 < p.
Hypothesis Ht : is_prime p = true.

Lemma FE_new_eval (c : FieldClass) (v : Z) :
  class_ok c p -> FE_new c v p = Ok (mkFE c (v mod p) p).
Proof.
  intros Hc. destruct c; simpl.
  - unfold ModularFieldInteger_init. rewrite Ht. cbn [negb].
    rewrite py_mod_nonzero by lia. reflexivity.
  - assert (E : (p =? EC_PRIME) = true) by (apply Z.eqb_eq; auto).
    unfold S256Integer_init, ModularFieldInteger_init.
    rewrite E, Ht. cbn [negb].
    rewrite py_mod_nonzero by lia. reflexivity.
Qed.

Lemma field_element_ok_mk (c : FieldClass) (v : Z) :
  class_ok c p -> field_element_ok (mkFE c (v mod p) p).
Proof.
  intros Hc. unfold field_element_ok; cbn [prime value fcls].
  split; [exact Hp | split; [exact Ht | split; [ | exact Hc]]].
  apply Z.mod_pos_bound; lia.
Qed.

Variables (c c' : FieldClass) (v v' : Z).
Hypothesis Hc : class_ok c p.

Lemma add_eval :
  ModularFieldInteger_add (mkFE c v p) (mkFE c' v' p)
  = Ok (mkFE c ((v + v') mod p) p).
Proof.
  unfold ModularFieldInteger_add. cbn [prime value fcls].
  rewrite Z.eqb_refl. cbn [negb].
  rewrite py_mod_nonzero by lia. cbn [bind].
  rewrite FE_new_eval, Z.mod_mod by (assumption || lia). reflexivity.
Qed.

Lemma sub_eval :
  ModularFieldInteger_sub (mkFE c v p) (mkFE c' v' p)
  = Ok (mkFE c ((v - v') mod p) p).
Proof.
  unfold ModularFieldInteger_sub. cbn [prime value fcls].
  rewrite Z.eqb_refl. cbn [negb].
  rewrite py_mod_nonzero by lia. cbn [bind].
  rewrite FE_new_eval, Z.mod_mod by (assumption || lia). reflexivity.
Qed.

Lemma mul_eval :
  ModularFieldInteger_mul (mkFE c v p) (mkFE c' v' p)
  = Ok (mkFE c ((v * v') mod p) p).
Proof.
  unfold ModularFieldInteger_mul. cbn [prime value fcls].
  rewrite Z.eqb_refl. cbn [negb].
  rewrite py_mod_nonzero by lia. cbn [bind].
  rewrite FE_new_eval, Z.mod_mod by (assumption || lia). reflexivity.
Qed.

Lemma truediv_eval :
  ModularFieldInteger_truediv (mkFE c v p) (mkFE c' v' p)
  = Ok (mkFE c ((v * pow_mod v' (p - 2) p) mod p) p).
Proof.
  unfold ModularFieldInteger_truediv. cbn [prime value fcls].
  rewrite Z.eqb_refl. cbn [negb].
  rewrite py_pow3_nonneg by lia. cbn [bind].
  rewrite py_mod_nonzero by lia. cbn [bind].
  rewrite FE_new_eval, Z.mod_mod by (assumption || lia). reflexivity.
Qed.

Lemma pow_eval (exponent : Z) :
  ModularFieldInteger_pow (mkFE c v p) exponent
  = Ok (mkFE c (pow_mod v (exponent mod (p - 1)) p) p).
Proof.
  unfold ModularFieldInteger_pow. cbn [prime value fcls].
  rewrite py_mod_nonzero by lia. cbn [bind].
  rewrite py_pow3_nonneg by (try lia; apply Z.mod_pos_bound; lia).
  cbn [bind]. rewrite FE_new_eval by assumption.
  apply f_equal. apply (f_equal (fun u => mkFE c u p)).
  apply Z.mod_small. apply pow_mod_range. lia.
Qed.

Lemma rmul_eval (coefficient : Z) :
  ModularFieldInteger_rmul coefficient (mkFE c v p)
  = Ok (mkFE c ((v * coefficient) mod p) p).
Proof.
  unfold ModularFieldInteger_rmul. cbn [prime value fcls].
  rewrite py_mod_nonzero by lia. cbn [bind].
  rewrite FE_new_eval, Z.mod_mod by (assumption || lia). reflexivity.
Qed.

End FieldOperations.

Lemma field_element_ok_inv (x : ModularFieldInteger) :
  field_element_ok x ->
  1 < prime x /\ is_prime (prime x) = true /\ class_ok (fcls x) (prime x).
Proof. intros (H1 & H2 & _ & H3). auto. Qed.

(** C9.  The constructor accepts every integer value, negative or above
    the modulus included, over a modulus [p > 1] that the primality test
    accepts, and stores it reduced modulo [p], so the stored value lies in
    [0, prime); every arithmetic operation on well-formed elements of one
    field returns a well-formed element of that field. *)
Theorem field_value_invariant :
  (forall (c : FieldClass) (v p : Z),
      1 < p -> is_prime p = true -> class_ok c p ->
      exists e, FE_new c v p = Ok e
                /\ value e = v mod p /\ prime e = p
                /\ 0 <= value e < prime e)
  /\ preserves_invariant ModularFieldInteger_add
  /\ preserves_invariant ModularFieldInteger_sub
  /\ preserves_invariant ModularFieldInteger_mul
  /\ preserves_invariant ModularFieldInteger_truediv
  /\ (forall n, preserves_invariant
                  (fun x _ => ModularFieldInteger_pow x n))
  /\ (forall n, preserves_invariant
                  (fun x _ => ModularFieldInteger_rmul n x)).
Proof.
  assert (Hmk : forall c v p v',
             1 < p -> is_prime p = true -> class_ok c p ->
             exists e, Ok (mkFE c (v mod p) p) = Ok e
                       /\ field_element_ok e
                       /\ prime e = prime (mkFE c v' p)).
  { intros c v p v' Hp Ht Hc. eexists.
    split; [reflexivity | split; [ | reflexivity]].
    apply field_element_ok_mk; assumption. }
  split; [ | repeat split].
  - intros c v p Hp Ht Hc.
    exists (mkFE c (v mod p) p). rewrite FE_new_eval by assumption.
    cbn [value prime].
    repeat split; try reflexivity; apply Z.mod_pos_bound; lia.
  - intros [c v p] [c' v' p'] Hx Hy Hxy. cbn [prime] in Hxy. subst p'.
    destruct (field_element_ok_inv _ Hx) as (Hp & Ht & Hc).
    rewrite add_eval by assumption. apply Hmk; assumption.
  - intros [c v p] [c' v' p'] Hx Hy Hxy. cbn [prime] in Hxy. subst p'.
    destruct (field_element_ok_inv _ Hx) as (Hp & Ht & Hc).
    rewrite sub_eval by assumption. apply Hmk; assumption.
  - intros [c v p] [c' v' p'] Hx Hy Hxy. cbn [prime] in Hxy. subst p'.
    destruct (field_element_ok_inv _ Hx) as (Hp & Ht & Hc).
    rewrite mul_eval by assumption. apply Hmk; assumption.
  - intros [c v p] [c' v' p'] Hx Hy Hxy. cbn [prime] in Hxy. subst p'.
    destruct (field_element_ok_inv _ Hx) as (Hp & Ht & Hc).
    rewrite truediv_eval by assumption. apply Hmk; assumption.
  - intros n [c v p] y Hx _ _.
    destruct (field_element_ok_inv _ Hx) as (Hp & Ht & Hc).
    cbn [prime fcls] in Hp, Ht, Hc.
    rewrite pow_eval by assumption.
    eexists; split; [reflexivity | split; [ | reflexivity]].
    unfold field_element_ok; cbn [prime value fcls].
    split; [exact Hp | split; [exact Ht | split; [ | exact Hc]]].
    apply pow_mod_range; lia.
  - intros n [c v p] y Hx _ _.
    destruct (field_element_ok_inv _ Hx) as (Hp & Ht & Hc).
    rewrite rmul_eval by assumption. apply Hmk; assumption.
Qed.

(** C8.  [x ** exponent] reduces the exponent modulo [prime - 1] before the
    modular exponentiation; the exponent [prime - 1] therefore becomes [0],
    and a nonzero element raised to it is the element one of its field. *)
Theorem pow_reduces_exponent (x : ModularFieldInteger) :
  field_element_ok x ->
  (forall exponent : Z,
      ModularFieldInteger_pow x exponent
      = FE_new (fcls x)
          (pow_mod (value x) (exponent mod (prime x - 1)) (prime x)) (prime x)
      /\ ModularFieldInteger_pow x exponent
         = ModularFieldInteger_pow x (exponent mod (prime x - 1)))
  /\ (value x <> 0 ->
      ModularFieldInteger_pow x (prime x - 1) = Ok (mkFE (fcls x) 1 (prime x))).
Proof.
  destruct x as [c v p]. intros Hx.
  destruct (field_element_ok_inv _ Hx) as (Hp & Ht & Hc).
  cbn [prime fcls value] in *. split.
  - intros exponent. split.
    + rewrite pow_eval, FE_new_eval by assumption.
      apply f_equal. apply (f_equal (fun u => mkFE c u p)).
      symmetry. apply Z.mod_small. apply pow_mod_range. lia.
    + rewrite !pow_eval by assumption.
      rewrite Z.mod_mod by lia. reflexivity.
  - intros _. rewrite pow_eval by assumption.
    rewrite Z.mod_same by lia. cbn [pow_mod].
    rewrite Z.mod_1_l by lia. reflexivity.
Qed.

(** ** Calls that need no fuel *)

Lemma halts_Ok {T : Type} (v : T) : halts (Ok v).
Proof. discriminate. Qed.

Lemma halts_Raise {T : Type} (e : PyError) : halts (@Raise T e).
Proof. discriminate. Qed.

Lemma halts_bind {T U : Type} (m : result T) (f : T -> result U) :
  halts m -> (forall v, halts (f v)) -> halts (bind m f).
Proof.
  intros Hm Hf. destruct m; simpl; [apply Hf | discriminate | contradiction].
Qed.

Create HintDb halts discriminated.
#[local] Hint Resolve halts_Ok halts_Raise : halts.

Ltac halts_step :=
  match goal with
  | |- halts (bind _ _) => apply halts_bind; [ | intros ? ]
  | |- halts (if ?c then _ else _) => destruct c
  | |- halts (match ?c with _ => _ end) => destruct c
  | |- halts (let '(_, _) := ?c in _) => destruct c
  | |- halts _ => solve [auto with halts]
  end.

Ltac halts_auto := repeat halts_step.

Lemma halts_py_mod (n m : Z) : halts (py_mod n m).
Proof. unfold py_mod. halts_auto. Qed.

Lemma halts_py_pow3 (base e m : Z) : halts (py_pow3 base e m).
Proof. unfold py_pow3. halts_auto. Qed.

#[local] Hint Resolve halts_py_mod halts_py_pow3 : halts.

Lemma halts_FE_new (c : FieldClass) (v p : Z) : halts (FE_new c v p).
Proof.
  unfold FE_new, S256Integer_init, ModularFieldInteger_init. halts_auto.
Qed.

#[local] Hint Resolve halts_FE_new : halts.

Lemma halts_add (x y : ModularFieldInteger) :
  halts (ModularFieldInteger_add x y).
Proof. unfold ModularFieldInteger_add. halts_auto. Qed.

Lemma halts_sub (x y : ModularFieldInteger) :
  halts (ModularFieldInteger_sub x y).
Proof. unfold ModularFieldInteger_sub. halts_auto. Qed.

Lemma halts_mul (x y : ModularFieldInteger) :
  halts (ModularFieldInteger_mul x y).
Proof. unfold ModularFieldInteger_mul. halts_auto. Qed.

Lemma halts_truediv (x y : ModularFieldInteger) :
  halts (ModularFieldInteger_truediv x y).
Proof. unfold ModularFieldInteger_truediv. halts_auto. Qed.

Lemma halts_pow (x : ModularFieldInteger) (n : Z) :
  halts (ModularFieldInteger_pow x n).
Proof. unfold ModularFieldInteger_pow. halts_auto. Qed.

Lemma halts_rmul (n : Z) (x : ModularFieldInteger) :
  halts (ModularFieldInteger_rmul n x).
Proof. unfold ModularFieldInteger_rmul. halts_auto. Qed.

#[local] Hint Resolve halts_add halts_sub halts_mul halts_truediv halts_pow
  halts_rmul : halts.

Lemma halts_Point_new (c : PointClass) (x y : option ModularFieldInteger)
  (a b : ModularFieldInteger) : halts (Point_new c x y a b).
Proof.
  unfold Point_new, S256Point_init, EllipcCurvePoint_init, is_on_elliptic_curve.
  halts_auto.
Qed.

#[local] Hint Resolve halts_Point_new : halts.

Lemma halts_EllipcCurvePoint_add (P Q : EllipcCurvePoint) :
  halts (EllipcCurvePoint_add P Q).
Proof. unfold EllipcCurvePoint_add. halts_auto. Qed.

Lemma halts_py_add (p q : option EllipcCurvePoint) : halts (py_add p q).
Proof.
  destruct p as [P | ], q as [Q | ]; simpl; auto with halts.
  apply halts_EllipcCurvePoint_add.
Qed.

#[local] Hint Resolve halts_py_add : halts.

(** The loop of [__rmul__] runs once per bit of a non-negative
    coefficient. *)
Lemma halts_rmul_loop (fuel : nat) :
  forall (coef : Z) (current acc : option EllipcCurvePoint),
    0 <= coef < 2 ^ Z.of_nat fuel -> halts (rmul_loop fuel coef current acc).
Proof.
  induction fuel as [ | fuel IH]; intros coef current acc Hc.
  - change (2 ^ Z.of_nat 0) with 1 in Hc. assert (coef = 0) as -> by lia.
    simpl. auto with halts.
  - cbn [rmul_loop]. destruct (coef =? 0); [auto with halts | ].
    apply halts_bind; [destruct (Z.land coef 1 =? 0); auto with halts | ].
    intros acc'. apply halts_bind; [auto with halts | ].
    intros current'. apply IH.
    rewrite Z.shiftr_div_pow2 by lia. change (2 ^ 1) with 2.
    rewrite Nat2Z.inj_succ, Z.pow_succ_r in Hc by lia.
    split.
    + apply Z.div_pos; lia.
    + apply Z.div_lt_upper_bound; lia.
Qed.

Lemma halts_S256Point_rmul (fuel : nat) (k : Z) (P : EllipcCurvePoint) :
  (256 <= fuel)%nat -> halts (S256Point_rmul fuel k P).
Proof.
  intros Hf. unfold S256Point_rmul, EllipcCurvePoint_rmul.
  rewrite py_mod_nonzero by discriminate. cbn [bind].
  apply halts_bind; [auto with halts | ]. intros acc.
  apply halts_rmul_loop.
  assert (Hn : 0 <= k mod G_ORDER < G_ORDER)
    by (apply Z.mod_pos_bound; reflexivity).
  assert (Hp : 2 ^ 256 <= 2 ^ Z.of_nat fuel)
    by (apply Z.pow_le_mono_r; lia).
  assert (Hg : G_ORDER < 2 ^ 256) by reflexivity.
  lia.
Qed.

(** ** Scalar multiplication on secp256k1 *)

Lemma ModularFieldInteger_eq_refl (x : ModularFieldInteger) :
  ModularFieldInteger_eq x x = true.
Proof. unfold ModularFieldInteger_eq. rewrite !Z.eqb_refl. reflexivity. Qed.

Lemma Point_new_S256_infinity :
  Point_new S256PointC None None A B = Ok S256_infinity.
Proof.
  unfold Point_new, S256Point_init.
  rewrite !ModularFieldInteger_eq_refl. reflexivity.
Qed.

Lemma rmul_loop_zero (fuel : nat) (current acc : option EllipcCurvePoint) :
  rmul_loop fuel 0 current acc = Ok acc.
Proof. destruct fuel; reflexivity. Qed.

Lemma S256Point_rmul_multiple (fuel : nat) (k : Z) (P : EllipcCurvePoint) :
  S256Point_object P -> k mod G_ORDER = 0 ->
  Point_rmul fuel k P = Ok (Some S256_infinity).
Proof.
  intros (Hc & Ha & Hb) Hk.
  unfold Point_rmul, S256Point_rmul, EllipcCurvePoint_rmul.
  rewrite Hc, Ha, Hb.
  rewrite py_mod_nonzero by discriminate. cbn [bind].
  rewrite Point_new_S256_infinity, Hk. cbn [bind].
  apply rmul_loop_zero.
Qed.

Lemma S256Point_object_G : S256Point_object G.
Proof. repeat split. Qed.

Lemma Point_rmul_G_mod (fuel : nat) (j : Z) :
  Point_rmul fuel j G = EllipcCurvePoint_rmul fuel (j mod G_ORDER) G.
Proof.
  unfold Point_rmul, S256Point_rmul. cbn [pcls G].
  rewrite py_mod_nonzero by discriminate. reflexivity.
Qed.

(** C3.  Scalar multiplication on an [S256Point] reduces the scalar modulo
    the group order [n] and runs the double-and-add loop on the remainder,
    so [(k mod n) * G] and [k * G] are the same computation for every
    integer [k]; [n * G] is the point at infinity; and 256 rounds of the
    loop are enough for every scalar. *)
Theorem S256Point_rmul_mod_order (fuel : nat) (k : Z) :
  (forall P : EllipcCurvePoint,
      pcls P = S256PointC ->
      Point_rmul fuel k P = EllipcCurvePoint_rmul fuel (k mod G_ORDER) P)
  /\ Point_rmul fuel (k mod G_ORDER) G = Point_rmul fuel k G
  /\ Point_rmul fuel G_ORDER G = Ok (Some S256_infinity)
  /\ ((256 <= fuel)%nat -> halts (Point_rmul fuel k G)).
Proof.
  split; [ | split; [ | split]].
  - intros P HP. unfold Point_rmul, S256Point_rmul. rewrite HP.
    rewrite py_mod_nonzero by discriminate. reflexivity.
  - rewrite !Point_rmul_G_mod, Z.mod_mod by discriminate. reflexivity.
  - apply S256Point_rmul_multiple.
    + apply S256Point_object_G.
    + apply Z.mod_same. discriminate.
  - intros Hf. unfold Point_rmul. cbn [pcls G].
    apply halts_S256Point_rmul. exact Hf.
Qed.

(** ** Verification *)

Lemma pow_mod_pos_zero (e : positive) (m : Z) : pow_mod_pos 0 e m = 0.
Proof.
  induction e as [e IH | e IH | ]; cbn [pow_mod_pos]; cbv zeta;
    rewrite ?IH, ?Z.mul_0_r, ?Zmod_0_l; reflexivity.
Qed.

Lemma inverse_of_zero : py_pow3 0 (G_ORDER - 2) G_ORDER = Ok 0.
Proof.
  rewrite py_pow3_nonneg by (first [discriminate | vm_compute; discriminate]).
  apply f_equal. change (G_ORDER - 2) with (Z.pos (Z.to_pos (G_ORDER - 2))).
  apply pow_mod_pos_zero.
Qed.

(** C5.  [verify] does not check the range of [r] and [s].  With [s = 0]
    the modular inverse step returns 0 without raising, both scalars become
    0, the sum [u*G + v*P] is the point at infinity, and reading its [x]
    coordinate raises: the call fails with [AttributeError] for every
    [S256Point], every [z] and every [r], and returns no boolean. *)
Theorem verify_zero_s_raises (fuel : nat) (self : EllipcCurvePoint) (z r : Z) :
  S256Point_object self ->
  py_pow3 0 (G_ORDER - 2) G_ORDER = Ok 0
  /\ S256Point_verify fuel self z (mkSignature r 0) = Raise AttributeError.
Proof.
  intros Hself. split; [exact inverse_of_zero | ].
  unfold S256Point_verify. cbn [sig_s sig_r].
  rewrite inverse_of_zero. cbn [bind].
  rewrite !Z.mul_0_r.
  rewrite py_mod_nonzero by discriminate. cbn [bind].
  change (0 mod G_ORDER) with 0.
  rewrite (S256Point_rmul_multiple fuel 0 G S256Point_object_G) by reflexivity.
  cbn [bind].
  rewrite (S256Point_rmul_multiple fuel 0 self Hself) by reflexivity.
  cbn [bind]. unfold py_add, EllipcCurvePoint_add, S256_infinity.
  cbn [pt_a pt_b coords]. rewrite !ModularFieldInteger_eq_refl.
  reflexivity.
Qed.


(** ** Curve points *)

Lemma ModularFieldInteger_eq_mk (c c' : FieldClass) (v v' p : Z) :
  ModularFieldInteger_eq (mkFE c v p) (mkFE c' v' p) = (v =? v').
Proof.
  unfold ModularFieldInteger_eq. cbn [value prime].
  rewrite Z.eqb_refl. apply andb_true_r.
Qed.

Lemma ModularFieldInteger_eq_true (x y : ModularFieldInteger) :
  ModularFieldInteger_eq x y = true -> value x = value y /\ prime x = prime y.
Proof.
  unfold ModularFieldInteger_eq. intros H.
  apply andb_true_iff in H. destruct H as [H1 H2].
  apply Z.eqb_eq in H1. apply Z.eqb_eq in H2. auto.
Qed.

Lemma Point_new_init (c : PointClass) (x y : option ModularFieldInteger)
  (a b : ModularFieldInteger) :
  (c = S256PointC -> a = A /\ b = B) ->
  Point_new c x y a b = EllipcCurvePoint_init c x y a b.
Proof.
  intros Hc. destruct c; [reflexivity | ].
  destruct (Hc eq_refl) as [-> ->].
  unfold Point_new, S256Point_init.
  rewrite !ModularFieldInteger_eq_refl. reflexivity.
Qed.

Lemma Point_new_S256_inv (x y : option ModularFieldInteger)
  (a b : ModularFieldInteger) (P : EllipcCurvePoint) :
  Point_new S256PointC x y a b = Ok P -> pt_a P = A /\ pt_b P = B.
Proof.
  unfold Point_new, S256Point_init, EllipcCurvePoint_init.
  destruct (ModularFieldInteger_eq a A); [ | discriminate].
  destruct (ModularFieldInteger_eq b B); [ | discriminate].
  cbn [negb].
  destruct x as [xv | ], y as [yv | ]; try discriminate.
  - destruct (is_on_elliptic_curve xv yv A B) as [[ | ] | | ];
      cbn [bind]; try discriminate.
    intros [= <-]. auto.
  - intros [= <-]. auto.
Qed.

Lemma point_ok_class (P : EllipcCurvePoint) :
  point_ok P -> pcls P = S256PointC -> pt_a P = A /\ pt_b P = B.
Proof.
  intros (_ & _ & _ & H) Hc. rewrite Hc in H.
  exact (Point_new_S256_inv _ _ _ _ _ H).
Qed.

Lemma point_ok_on_curve (P : EllipcCurvePoint) (x y : ModularFieldInteger) :
  point_ok P -> coords P = Some (x, y) ->
  is_on_elliptic_curve x y (pt_a P) (pt_b P) = Ok true.
Proof.
  intros HP Hxy. pose proof HP as (_ & _ & _ & H).
  rewrite Point_new_init in H by (apply point_ok_class; exact HP).
  unfold pt_x, pt_y in H. rewrite Hxy in H.
  cbn [option_map fst snd EllipcCurvePoint_init] in H.
  destruct (is_on_elliptic_curve x y (pt_a P) (pt_b P)) as [[ | ] | | ];
    cbn [bind] in H; try discriminate.
  reflexivity.
Qed.

Lemma point_ok_infinity (c : PointClass) (a b : ModularFieldInteger) :
  field_element_ok a -> field_element_ok b ->
  (c = S256PointC -> a = A /\ b = B) ->
  point_ok (mkPoint c None a b).
Proof.
  intros Ha Hb Hc. unfold point_ok. cbn [pt_a pt_b coords pcls].
  split; [exact Ha | split; [exact Hb | split]].
  - intros x y [=].
  - rewrite Point_new_init by exact Hc. reflexivity.
Qed.

(** The constructor's curve check in a field whose modulus the primality
    test accepts. *)
Section CurveCheck.

Variable p : Z.
Hypothesis Hp : 1 < p.
Hypothesis Ht : is_prime p = true.

Lemma on_curve_eval (cx cy ca cb : FieldClass) (x y a b : Z) :
  class_ok cx p -> class_ok cy p -> class_ok ca p ->
  is_on_elliptic_curve (mkFE cx x p) (mkFE cy y p) (mkFE ca a p) (mkFE cb b p)
  = Ok (pow_mod y (2 mod (p - 1)) p
        =? ((pow_mod x (3 mod (p - 1)) p + (a * x) mod p) mod p + b) mod p).
Proof.
  intros Hx Hy Ha. unfold is_on_elliptic_curve.
  rewrite pow_eval by assumption. cbn [bind].
  rewrite pow_eval by assumption. cbn [bind].
  rewrite mul_eval by assumption. cbn [bind].
  rewrite add_eval by assumption. cbn [bind].
  rewrite add_eval by assumption. cbn [bind].
  rewrite ModularFieldInteger_eq_mk. reflexivity.
Qed.

End CurveCheck.

(** A point the curve check accepted has all four of its field elements in
    one field. *)
Lemma on_curve_same_field (x y a b : ModularFieldInteger) :
  field_element_ok x -> field_element_ok y ->
  is_on_elliptic_curve x y a b = Ok true ->
  prime y = prime x /\ prime a = prime x /\ prime b = prime x.
Proof.
  destruct x as [cx x p], y as [cy y py], a as [ca a pa], b as [cb b pb].
  intros Hx Hy. cbn [prime].
  destruct (field_element_ok_inv _ Hx) as (Hp & Ht & Hcx).
  destruct (field_element_ok_inv _ Hy) as (Hpy & Hty & Hcy).
  cbn [prime fcls] in *.
  unfold is_on_elliptic_curve.
  rewrite (pow_eval py) by assumption. cbn [bind].
  rewrite (pow_eval p) by assumption. cbn [bind].
  unfold ModularFieldInteger_mul at 1. cbn [prime value fcls].
  destruct (pa =? p) eqn:Ea; cbn [negb]; [ | discriminate].
  apply Z.eqb_eq in Ea. subst pa.
  rewrite py_mod_nonzero by lia. cbn [bind].
  destruct (FE_new ca ((a * x) mod p) p) as [ax | | ] eqn:Eax;
    cbn [bind]; try discriminate.
  assert (Hax : prime ax = p).
  { destruct ca; cbn [FE_new] in Eax;
      unfold S256Integer_init, ModularFieldInteger_init in Eax;
      repeat match type of Eax with
             | (if ?c then _ else _) = _ => destruct c; try discriminate
             end;
      rewrite py_mod_nonzero in Eax by lia; cbn [bind] in Eax;
      injection Eax as <-; reflexivity. }
  destruct ax as [cax vax pax]. cbn [prime] in Hax. subst pax.
  rewrite (add_eval p) by assumption. cbn [bind].
  unfold ModularFieldInteger_add at 1. cbn [prime value fcls].
  destruct (p =? pb) eqn:Eb; cbn [negb]; [ | discriminate].
  apply Z.eqb_eq in Eb. subst pb.
  rewrite py_mod_nonzero by lia. cbn [bind].
  rewrite (FE_new_eval p) by assumption. cbn [bind].
  unfold ModularFieldInteger_eq. cbn [prime value].
  intros [= H]. apply andb_true_iff in H. destruct H as [_ H].
  apply Z.eqb_eq in H. auto.
Qed.


(** [__add__] on two finite points of one curve, case by case, in a field
    whose modulus the primality test accepts. *)
Section AddCases.

Variable p : Z.
Hypothesis Hp : 1 < p.
Hypothesis Ht : is_prime p = true.

Variables (cls cls' : PointClass).
Variables (cx1 cy1 cx2 cy2 ca cb ca' cb' : FieldClass).
Variables (x1 y1 x2 y2 a b : Z).

Hypothesis Hcx1 : class_ok cx1 p.
Hypothesis Hcy1 : class_ok cy1 p.
Hypothesis Hcx2 : class_ok cx2 p.
Hypothesis Hcy2 : class_ok cy2 p.
Hypothesis Hca : class_ok ca p.
Hypothesis Hcls : cls = S256PointC -> mkFE ca a p = A /\ mkFE cb b p = B.

Let P : EllipcCurvePoint :=
  mkPoint cls (Some (mkFE cx1 x1 p, mkFE cy1 y1 p)) (mkFE ca a p) (mkFE cb b p).
Let Q : EllipcCurvePoint :=
  mkPoint cls' (Some (mkFE cx2 x2 p, mkFE cy2 y2 p))
    (mkFE ca' a p) (mkFE cb' b p).

Lemma add_eval_opposite :
  x1 = x2 -> y1 <> y2 ->
  EllipcCurvePoint_add P Q
  = Ok (Some (mkPoint cls None (mkFE ca a p) (mkFE cb b p))).
Proof.
  intros Hx Hy. unfold EllipcCurvePoint_add, P, Q.
  cbn [pt_a pt_b coords pcls].
  rewrite !ModularFieldInteger_eq_mk, !Z.eqb_refl. cbn [negb orb].
  apply Z.eqb_eq in Hx. apply Z.eqb_neq in Hy. rewrite Hx, Hy.
  cbn [negb andb]. rewrite Point_new_init by exact Hcls. reflexivity.
Qed.

Lemma add_eval_chord :
  x1 <> x2 ->
  EllipcCurvePoint_add P Q
  = (R <- EllipcCurvePoint_init cls
            (Some (mkFE cy2 (fst (chord_sum p x1 y1 x2 y2)) p))
            (Some (mkFE cy2 (snd (chord_sum p x1 y1 x2 y2)) p))
            (mkFE ca a p) (mkFE cb b p) ;;
     Ok (Some R)).
Proof.
  intros Hx. unfold EllipcCurvePoint_add, P, Q.
  cbn [pt_a pt_b coords pcls].
  rewrite !ModularFieldInteger_eq_mk, !Z.eqb_refl. cbn [negb orb].
  apply Z.eqb_neq in Hx. rewrite Hx. cbn [negb andb].
  rewrite sub_eval by assumption. cbn [bind].
  rewrite sub_eval by assumption. cbn [bind].
  rewrite truediv_eval by assumption. cbn [bind].
  rewrite pow_eval by assumption. cbn [bind].
  rewrite sub_eval by assumption. cbn [bind].
  rewrite sub_eval by assumption. cbn [bind].
  rewrite sub_eval by assumption. cbn [bind].
  rewrite mul_eval by assumption. cbn [bind].
  rewrite sub_eval by assumption. cbn [bind].
  rewrite Point_new_init by exact Hcls. reflexivity.
Qed.

Lemma add_eval_vertical_tangent :
  x1 = x2 -> y1 = y2 -> y1 = 0 ->
  EllipcCurvePoint_add P Q
  = Ok (Some (mkPoint cls None (mkFE ca a p) (mkFE cb b p))).
Proof.
  intros Hx Hy H0. unfold EllipcCurvePoint_add, EllipcCurvePoint_eq, P, Q.
  cbn [pt_a pt_b pt_x pt_y coords pcls option_map fst snd coord_eq].
  rewrite !ModularFieldInteger_eq_mk, !Z.eqb_refl. cbn [negb orb].
  apply Z.eqb_eq in Hx. apply Z.eqb_eq in Hy. rewrite Hx, Hy.
  cbn [negb andb].
  rewrite rmul_eval by assumption. cbn [bind].
  rewrite ModularFieldInteger_eq_mk, Z.mul_0_r, Zmod_0_l.
  apply Z.eqb_eq in H0. rewrite H0.
  rewrite Point_new_init by exact Hcls. reflexivity.
Qed.

Lemma add_eval_tangent :
  x1 = x2 -> y1 = y2 -> y1 <> 0 ->
  EllipcCurvePoint_add P Q
  = (R <- EllipcCurvePoint_init cls
            (Some (mkFE cx1 (fst (tangent_sum p a x1 y1)) p))
            (Some (mkFE cx1 (snd (tangent_sum p a x1 y1)) p))
            (mkFE ca a p) (mkFE cb b p) ;;
     Ok (Some R)).
Proof.
  intros Hx Hy H0. unfold EllipcCurvePoint_add, EllipcCurvePoint_eq, P, Q.
  cbn [pt_a pt_b pt_x pt_y coords pcls option_map fst snd coord_eq].
  rewrite !ModularFieldInteger_eq_mk, !Z.eqb_refl. cbn [negb orb].
  apply Z.eqb_eq in Hx. apply Z.eqb_eq in Hy. rewrite Hx, Hy.
  cbn [negb andb].
  rewrite rmul_eval by assumption. cbn [bind].
  rewrite ModularFieldInteger_eq_mk, Z.mul_0_r, Zmod_0_l.
  apply Z.eqb_neq in H0. rewrite H0.
  rewrite pow_eval by assumption. cbn [bind].
  rewrite rmul_eval by assumption. cbn [bind].
  rewrite add_eval by assumption. cbn [bind].
  rewrite rmul_eval by assumption. cbn [bind].
  rewrite truediv_eval by assumption. cbn [bind].
  rewrite pow_eval by assumption. cbn [bind].
  rewrite rmul_eval by assumption. cbn [bind].
  rewrite sub_eval by assumption. cbn [bind].
  rewrite sub_eval by assumption. cbn [bind].
  rewrite mul_eval by assumption. cbn [bind].
  rewrite sub_eval by assumption. cbn [bind].
  rewrite Point_new_init by exact Hcls. reflexivity.
Qed.

End AddCases.


(** ** Closure of the addition formulas over a prime field *)

Lemma cong_divide (p u v : Z) : u mod p = v mod p <-> (p | u - v).
Proof. rewrite Z.cong_iff_ex. reflexivity. Qed.

(** The line through two points of the curve with different [x] meets the
    curve in a third point: with [i] an inverse of [x2 - x1] modulo [p]. *)
Lemma chord_closed (p x1 y1 x2 y2 a b i : Z) :
  Z.prime p ->
  (p | y1 * y1 - (x1 * x1 * x1 + a * x1 + b)) ->
  (p | y2 * y2 - (x2 * x2 * x2 + a * x2 + b)) ->
  (p | (x2 - x1) * i - 1) ->
  ~ (p | x2 - x1) ->
  let s := (y2 - y1) * i in
  let x3 := s * s - x1 - x2 in
  let y3 := s * (x1 - x3) - y1 in
  (p | y3 * y3 - (x3 * x3 * x3 + a * x3 + b)).
Proof.
  intros Hp H1 H2 Hi Hd s x3 y3.
  set (E1 := y1 * y1 - (x1 * x1 * x1 + a * x1 + b)) in *.
  set (E2 := y2 * y2 - (x2 * x2 * x2 + a * x2 + b)) in *.
  set (E3 := (x2 - x1) * i - 1) in *.
  assert (H : (p | (x2 - x1) * (y3 * y3 - (x3 * x3 * x3 + a * x3 + b)))).
  { replace ((x2 - x1) * (y3 * y3 - (x3 * x3 * x3 + a * x3 + b)))
      with ((x2 - x3) * E1
            + ((x3 - x1) * E2
               + (x3 - x1) * (y2 - y1) * (2 * y2 + (y2 - y1) * E3) * E3))
      by (subst E1 E2 E3 y3 x3 s; ring).
    repeat apply Z.divide_add_r; apply Z.divide_mul_r; assumption. }
  apply Z.divide_prime_mul in H; [ | exact Hp].
  destruct H as [H | H]; [contradiction | exact H].
Qed.

(** The tangent at a point of the curve meets the curve in a further point:
    with [i] an inverse of [2 * y1] modulo [p]. *)
Lemma tangent_closed (p x1 y1 a b i : Z) :
  (p | y1 * y1 - (x1 * x1 * x1 + a * x1 + b)) ->
  (p | 2 * y1 * i - 1) ->
  let s := (3 * (x1 * x1) + a) * i in
  let x3 := s * s - 2 * x1 in
  let y3 := s * (x1 - x3) - y1 in
  (p | y3 * y3 - (x3 * x3 * x3 + a * x3 + b)).
Proof.
  intros H1 Hi s x3 y3.
  set (E1 := y1 * y1 - (x1 * x1 * x1 + a * x1 + b)) in *.
  set (E3 := 2 * y1 * i - 1) in *.
  replace (y3 * y3 - (x3 * x3 * x3 + a * x3 + b))
    with (E1 + (x3 - x1) * (3 * (x1 * x1) + a) * E3)
    by (subst E1 E3 y3 x3 s; ring).
  apply Z.divide_add_r; [ | apply Z.divide_mul_r]; assumption.
Qed.

#[local] Existing Instance eqm_setoid.
#[local] Existing Instance Zplus_eqm.
#[local] Existing Instance Zminus_eqm.
#[local] Existing Instance Zmult_eqm.

(** Turns a goal [l mod p = r mod p] into the congruence of [l] and [r] with
    every inner reduction modulo [p] removed. *)
Ltac cong_strip :=
  match goal with
  | |- ?l mod ?p = ?r mod ?p =>
      change (eqm p l r);
      repeat match goal with
             | |- context [?u mod p] => rewrite (Zmod_eqm p u)
             end
  end.

Section PrimeField.

Variable p : Z.
Hypothesis Hprime : Z.prime p.
Hypothesis H3 : 3 < p.

Lemma prime_ge_5 : 5 <= p.
Proof.
  destruct (Z.eq_dec p 4) as [E | E]; [ | lia].
  exfalso. rewrite E in Hprime. exact (Z.not_prime_square 2 Hprime).
Qed.

Lemma exponent_2 : 2 mod (p - 1) = 2.
Proof. pose proof prime_ge_5. apply Z.mod_small. lia. Qed.

Lemma exponent_3 : 3 mod (p - 1) = 3.
Proof. pose proof prime_ge_5. apply Z.mod_small. lia. Qed.

Lemma pow_mod_2 (v : Z) : pow_mod v 2 p = (v * v) mod p.
Proof. rewrite pow_mod_spec by lia. rewrite Z.pow_2_r. reflexivity. Qed.

Lemma pow_mod_3 (v : Z) : pow_mod v 3 p = (v * v * v) mod p.
Proof.
  rewrite pow_mod_spec by lia.
  replace (v ^ 3) with (v * v * v) by ring. reflexivity.
Qed.

Lemma not_divide_small (v : Z) : 0 < v < p -> ~ (p | v).
Proof. intros Hv Hd. apply Z.divide_pos_le in Hd; lia. Qed.

(** Fermat: the [(p - 2)]-th power inverts. *)
Lemma fermat_inverse (d : Z) :
  ~ (p | d) -> (p | d * pow_mod (d mod p) (p - 2) p - 1).
Proof.
  intros Hd. apply cong_divide.
  rewrite pow_mod_spec by lia.
  rewrite Z.mod_pow_l.
  rewrite Zmult_mod_idemp_r.
  replace (d * d ^ (p - 2)) with (d ^ (p - 1)).
  - rewrite Z.fermat_nz; [symmetry; apply Z.mod_1_l; lia | exact Hprime | ].
    intros H0. apply Hd. apply Z.mod_divide; [lia | exact H0].
  - replace (p - 1) with (Z.succ (p - 2)) by lia.
    rewrite Z.pow_succ_r by lia. reflexivity.
Qed.

(** The curve check, as a divisibility. *)
Lemma curve_check_iff (x y a b : Z) :
  (pow_mod y (2 mod (p - 1)) p
   =? ((pow_mod x (3 mod (p - 1)) p + (a * x) mod p) mod p + b) mod p) = true
  <-> (p | y * y - (x * x * x + a * x + b)).
Proof.
  rewrite exponent_2, exponent_3, pow_mod_2, pow_mod_3, Z.eqb_eq.
  rewrite <- cong_divide.
  assert (E : (((x * x * x) mod p + (a * x) mod p) mod p + b) mod p
              = (x * x * x + a * x + b) mod p)
    by (cong_strip; reflexivity).
  rewrite E. reflexivity.
Qed.

Section Chord.

Variables x1 y1 x2 y2 a b : Z.
Hypothesis H1 : (p | y1 * y1 - (x1 * x1 * x1 + a * x1 + b)).
Hypothesis H2 : (p | y2 * y2 - (x2 * x2 * x2 + a * x2 + b)).
Hypothesis Hx : ~ (p | x2 - x1).

Lemma chord_sum_on_curve :
  let '(x3, y3) := chord_sum p x1 y1 x2 y2 in
  (p | y3 * y3 - (x3 * x3 * x3 + a * x3 + b)).
Proof.
  unfold chord_sum. cbv zeta.
  pose proof (fermat_inverse (x2 - x1) Hx) as Hi.
  set (i := pow_mod ((x2 - x1) mod p) (p - 2) p) in *.
  pose proof (chord_closed p x1 y1 x2 y2 a b i Hprime H1 H2 Hi Hx) as H.
  cbv zeta in H. rewrite exponent_2, pow_mod_2.
  apply cong_divide.
  cong_strip. apply cong_divide.
  match goal with
  | |- (p | ?t) =>
      match type of H with (p | ?u) => replace t with u by ring end
  end.
  exact H.
Qed.

End Chord.

Lemma chord_sum_formula (x1 y1 x2 y2 : Z) :
  let s := chord_slope p x1 y1 x2 y2 in
  chord_sum p x1 y1 x2 y2
  = (sum_x p s x1 x2, sum_y p s x1 y1 (sum_x p s x1 x2)).
Proof.
  unfold chord_sum, chord_slope, sum_x, sum_y. cbv zeta.
  rewrite exponent_2, pow_mod_2, pow_mod_spec, Z.mod_pow_l, !Z.pow_2_r by lia.
  set (i := (x2 - x1) ^ (p - 2)).
  apply f_equal2.
  - cong_strip. unfold eqm. apply (f_equal (fun u => u mod p)). ring.
  - cong_strip. unfold eqm. apply (f_equal (fun u => u mod p)). ring.
Qed.

Section Tangent.

Variables x1 y1 a b : Z.
Hypothesis H1 : (p | y1 * y1 - (x1 * x1 * x1 + a * x1 + b)).
Hypothesis Hy : 0 < y1 < p.

Lemma double_y_invertible : ~ (p | y1 * 2).
Proof.
  intros H. apply Z.divide_prime_mul in H; [ | exact Hprime].
  destruct H as [H | H]; revert H; apply not_divide_small; lia.
Qed.

Lemma tangent_sum_on_curve :
  let '(x3, y3) := tangent_sum p a x1 y1 in
  (p | y3 * y3 - (x3 * x3 * x3 + a * x3 + b)).
Proof.
  unfold tangent_sum. cbv zeta.
  pose proof (fermat_inverse (y1 * 2) double_y_invertible) as Hi.
  set (i := pow_mod ((y1 * 2) mod p) (p - 2) p) in *.
  replace (y1 * 2 * i - 1) with (2 * y1 * i - 1) in Hi by ring.
  pose proof (tangent_closed p x1 y1 a b i H1 Hi) as H.
  cbv zeta in H. rewrite exponent_2, !pow_mod_2.
  apply cong_divide. cong_strip. apply cong_divide.
  match goal with
  | |- (p | ?t) =>
      match type of H with (p | ?u) => replace t with u by ring end
  end.
  exact H.
Qed.

Lemma tangent_sum_formula :
  let s := tangent_slope p a x1 y1 in
  tangent_sum p a x1 y1
  = (sum_x p s x1 x1, sum_y p s x1 y1 (sum_x p s x1 x1)).
Proof.
  unfold tangent_sum, tangent_slope, sum_x, sum_y. cbv zeta.
  rewrite exponent_2, !pow_mod_2, pow_mod_spec, Z.mod_pow_l, !Z.pow_2_r by lia.
  replace (y1 * 2) with (2 * y1) by ring.
  set (i := (2 * y1) ^ (p - 2)).
  apply f_equal2.
  - cong_strip. unfold eqm. apply (f_equal (fun u => u mod p)). ring.
  - cong_strip. unfold eqm. apply (f_equal (fun u => u mod p)). ring.
Qed.

End Tangent.

End PrimeField.


Lemma divide_small_difference (p u v : Z) :
  0 <= u < p -> 0 <= v < p -> (p | v - u) -> u = v.
Proof.
  intros Hu Hv [k Hk].
  assert (Hk0 : k = 0).
  { destruct (Z.lt_trichotomy k 0) as [Hneg | [H0 | Hpos]].
    - assert (k * p <= - p) by nia. lia.
    - exact H0.
    - assert (p <= k * p) by nia. lia. }
  subst k. lia.
Qed.

Lemma point_ok_finite (c : PointClass) (x y a b : ModularFieldInteger) :
  field_element_ok x -> field_element_ok y ->
  field_element_ok a -> field_element_ok b ->
  (c = S256PointC -> a = A /\ b = B) ->
  is_on_elliptic_curve x y a b = Ok true ->
  point_ok (mkPoint c (Some (x, y)) a b).
Proof.
  intros Hx Hy Ha Hb Hc Hon. unfold point_ok.
  cbn [pt_a pt_b pt_x pt_y coords pcls option_map fst snd].
  split; [exact Ha | split; [exact Hb | split]].
  - intros x' y' [= <- <-]. auto.
  - rewrite Point_new_init by exact Hc.
    cbn [EllipcCurvePoint_init]. rewrite Hon. reflexivity.
Qed.

(** X19.  Over a prime field with [p > 3], adding two finite points
    of one curve returns a point object of that curve; it is the point at
    infinity exactly when the operands have equal [x] and either different
    [y] or [y = 0]; otherwise its coordinates are given by the chord slope
    (different [x]) or the tangent slope (equal points). *)
Theorem add_infinity_iff_vertical
  (P Q : EllipcCurvePoint) (x1 y1 x2 y2 : ModularFieldInteger) :
  point_ok P -> point_ok Q -> same_curve P Q ->
  coords P = Some (x1, y1) -> coords Q = Some (x2, y2) ->
  Z.prime (prime x1) -> 3 < prime x1 ->
  exists R,
    EllipcCurvePoint_add P Q = Ok (Some R)
    /\ point_ok R /\ pcls R = pcls P /\ pt_a R = pt_a P /\ pt_b R = pt_b P
    /\ match coords R with
       | None => vertical x1 y1 x2 y2 = true
       | Some (x3, y3) =>
           vertical x1 y1 x2 y2 = false
           /\ prime x3 = prime x1 /\ prime y3 = prime x1
           /\ let p := prime x1 in
              let s :=
                if ModularFieldInteger_eq x1 x2
                then tangent_slope p (value (pt_a P)) (value x1) (value y1)
                else chord_slope p (value x1) (value y1) (value x2) (value y2)
              in
              value x3 = sum_x p s (value x1) (value x2)
              /\ value y3 = sum_y p s (value x1) (value y1) (value x3)
       end.
Proof.
  intros HP HQ [Ha Hb] HcP HcQ Hprime H3.
  pose proof (point_ok_on_curve P x1 y1 HP HcP) as On1.
  pose proof (point_ok_on_curve Q x2 y2 HQ HcQ) as On2.
  pose proof (point_ok_class P HP) as Hcls.
  destruct HP as (HaP & HbP & HxyP & _). destruct HQ as (HaQ & _ & HxyQ & _).
  destruct (HxyP x1 y1 HcP) as [Hx1 Hy1].
  destruct (HxyQ x2 y2 HcQ) as [Hx2 Hy2].
  destruct (on_curve_same_field _ _ _ _ Hx1 Hy1 On1) as (E1 & E2 & E3).
  destruct (on_curve_same_field _ _ _ _ Hx2 Hy2 On2) as (F1 & F2 & F3).
  apply ModularFieldInteger_eq_true in Ha. destruct Ha as [Hav Hap].
  apply ModularFieldInteger_eq_true in Hb. destruct Hb as [Hbv Hbp].
  destruct P as [cls cP aP bP], Q as [cls' cQ aQ bQ].
  cbn [coords pt_a pt_b pcls] in *. subst cP cQ.
  destruct x1 as [cx1 x1 p], y1 as [cy1 y1 py1], x2 as [cx2 x2 px2],
    y2 as [cy2 y2 py2], aP as [ca a pa], bP as [cb b pb],
    aQ as [ca' a' pa'], bQ as [cb' b' pb'].
  cbn [prime value fcls] in *.
  assert (px2 = p) by congruence.
  subst py1 pa pb py2 pa' pb' px2 a' b'.
  destruct Hx1 as (Hp & Ht & Rx1 & Hcx1). destruct Hy1 as (_ & _ & Ry1 & Hcy1).
  destruct Hx2 as (_ & _ & Rx2 & Hcx2). destruct Hy2 as (_ & _ & Ry2 & Hcy2).
  pose proof HaP as (_ & _ & _ & Hca). pose proof HbP as (_ & _ & _ & Hcb).
  pose proof HaQ as (_ & _ & _ & Hca').
  cbn [prime value fcls] in *.
  rewrite on_curve_eval in On1, On2 by assumption.
  injection On1 as On1. injection On2 as On2.
  apply (curve_check_iff p Hprime H3) in On1.
  apply (curve_check_iff p Hprime H3) in On2.
  unfold vertical. rewrite !ModularFieldInteger_eq_mk. cbn [value].
  destruct (Z.eq_dec x1 x2) as [Ex | Ex].
  - (* equal x *)
    assert (Ex' : (x1 =? x2) = true) by (apply Z.eqb_eq; exact Ex).
    rewrite Ex'. cbn [andb].
    destruct (Z.eq_dec y1 y2) as [Ey | Ey].
    + assert (Ey' : (y1 =? y2) = true) by (apply Z.eqb_eq; exact Ey).
      rewrite Ey'. cbn [negb orb].
      destruct (Z.eq_dec y1 0) as [E0 | E0].
      * (* doubling a point with y = 0 *)
        assert (E0' : (y1 =? 0) = true) by (apply Z.eqb_eq; exact E0).
        rewrite E0'.
        rewrite add_eval_vertical_tangent by assumption.
        eexists. split; [reflexivity | ].
        cbn [coords pcls pt_a pt_b].
        split; [apply point_ok_infinity; assumption | auto].
      * (* doubling *)
        assert (E0' : (y1 =? 0) = false) by (apply Z.eqb_neq; exact E0).
        rewrite E0'.
        rewrite add_eval_tangent by assumption.
        assert (Hy : 0 < y1 < p) by lia.
        pose proof (tangent_sum_on_curve p Hprime H3 x1 y1 a b On1 Hy) as Hc.
        pose proof (tangent_sum_formula p Hprime H3 x1 y1 a) as Hf.
        cbv zeta in Hf.
        destruct (tangent_sum p a x1 y1) as [x3 y3]. cbn [fst snd].
        injection Hf as Hx3 Hy3.
        apply (curve_check_iff p Hprime H3) in Hc.
        assert (Hon : is_on_elliptic_curve (mkFE cx1 x3 p) (mkFE cx1 y3 p)
                        (mkFE ca a p) (mkFE cb b p) = Ok true)
          by (rewrite on_curve_eval by assumption; rewrite Hc; reflexivity).
        cbn [EllipcCurvePoint_init]. rewrite Hon. cbn [bind].
        eexists. split; [reflexivity | ].
        cbn [coords pcls pt_a pt_b prime value].
        split.
        { apply point_ok_finite; try assumption.
          - rewrite Hx3. unfold sum_x. apply field_element_ok_mk; assumption.
          - rewrite Hy3. unfold sum_y. apply field_element_ok_mk; assumption. }
        repeat split; try reflexivity.
        -- rewrite <- Ex. exact Hx3.
        -- rewrite Hy3, Hx3. reflexivity.
    + (* opposite points *)
      assert (Ey' : (y1 =? y2) = false) by (apply Z.eqb_neq; exact Ey).
      rewrite Ey'. cbn [negb orb].
      rewrite add_eval_opposite by assumption.
      eexists. split; [reflexivity | ].
      cbn [coords pcls pt_a pt_b].
      split; [apply point_ok_infinity; assumption | auto].
  - (* different x *)
    assert (Ex' : (x1 =? x2) = false) by (apply Z.eqb_neq; exact Ex).
    rewrite Ex'. cbn [andb].
    rewrite add_eval_chord by assumption.
    assert (Hd : ~ (p | x2 - x1)).
    { intros Hd. apply Ex. apply (divide_small_difference p); assumption. }
    pose proof (chord_sum_on_curve p Hprime H3 x1 y1 x2 y2 a b On1 On2 Hd)
      as Hc.
    pose proof (chord_sum_formula p Hprime H3 x1 y1 x2 y2) as Hf.
    cbv zeta in Hf.
    destruct (chord_sum p x1 y1 x2 y2) as [x3 y3]. cbn [fst snd].
    injection Hf as Hx3 Hy3.
    apply (curve_check_iff p Hprime H3) in Hc.
    assert (Hon : is_on_elliptic_curve (mkFE cy2 x3 p) (mkFE cy2 y3 p)
                    (mkFE ca a p) (mkFE cb b p) = Ok true)
      by (rewrite on_curve_eval by assumption; rewrite Hc; reflexivity).
    cbn [EllipcCurvePoint_init]. rewrite Hon. cbn [bind].
    eexists. split; [reflexivity | ].
    cbn [coords pcls pt_a pt_b prime value].
    split.
    { apply point_ok_finite; try assumption.
      - rewrite Hx3. unfold sum_x. apply field_element_ok_mk; assumption.
      - rewrite Hy3. unfold sum_y. apply field_element_ok_mk; assumption. }
    repeat split; try reflexivity.
    + exact Hx3.
    + rewrite Hy3, Hx3. reflexivity.
Qed.


(** C7.  [__add__] does not return the point the tangent formula gives on
    every doubling that is none of the vertical cases.  On the curve
    y^2 = x^3 + x over the field of 3 elements the constructor accepts
    P = (2, 1), and [P + P] is not a vertical case; the tangent formulas
    give (0, 0), which satisfies the curve equation; but [__add__] builds
    its result with the constructor, whose check computes [0 ** 2] as
    [pow(0, 0, 3) = 1], so the constructor rejects (0, 0) and [P + P]
    raises [ValueError]. *)
Theorem add_raises_over_field_of_3 :
  is_prime 3 = true ->
  Point_new EllipcCurvePointC (Some (F3 2)) (Some (F3 1)) (F3 1) (F3 0)
  = Ok (curve3 2 1)
  /\ same_curve (curve3 2 1) (curve3 2 1)
  /\ vertical (F3 2) (F3 1) (F3 2) (F3 1) = false
  /\ (let s := tangent_slope 3 1 2 1 in
      sum_x 3 s 2 2 = 0 /\ sum_y 3 s 2 1 0 = 0)
  /\ (0 ^ 2 - (0 ^ 3 + 1 * 0 + 0)) mod 3 = 0
  /\ ModularFieldInteger_pow (F3 0) 2 = Ok (F3 1)
  /\ EllipcCurvePoint_init EllipcCurvePointC (Some (F3 0)) (Some (F3 0))
       (F3 1) (F3 0) = Raise ValueError
  /\ EllipcCurvePoint_add (curve3 2 1) (curve3 2 1) = Raise ValueError.
Proof.
  intros Ht.
  assert (Hp : 1 < 3) by reflexivity.
  assert (Hc : class_ok ModularFieldIntegerC 3) by (intros H; discriminate H).
  unfold curve3, F3.
  split; [ | split; [ | split; [ | split; [ | split; [ | split; [ | split]]]]]].
  - cbn [Point_new EllipcCurvePoint_init].
    rewrite (on_curve_eval 3 Hp Ht) by exact Hc. reflexivity.
  - split; reflexivity.
  - reflexivity.
  - split; reflexivity.
  - reflexivity.
  - rewrite (pow_eval 3 Hp Ht) by exact Hc. reflexivity.
  - cbn [EllipcCurvePoint_init].
    rewrite (on_curve_eval 3 Hp Ht) by exact Hc. reflexivity.
  - rewrite (add_eval_tangent 3 Hp Ht);
      try exact Hc; try reflexivity; try discriminate.
    replace (tangent_sum 3 1 2 1) with (0, 0) by reflexivity.
    cbn [fst snd EllipcCurvePoint_init].
    rewrite (on_curve_eval 3 Hp Ht) by exact Hc. reflexivity.
Qed.


(** ** SEC encoding *)

(** C6.  [S256Point.parse] has an empty body and returns [None] whatever
    bytes it is given; in particular parsing the compressed or uncompressed
    SEC encoding of the generator does not give the generator back. *)
Theorem S256Point_parse_returns_None :
  (forall sec_bin, S256Point_parse sec_bin = None)
  /\ (forall compressed,
         exists sec_bin,
           S256Point_sec G compressed = Ok sec_bin
           /\ length sec_bin = (if compressed then 33 else 65)%nat
           /\ S256Point_parse sec_bin <> Some G).
Proof.
  split; [reflexivity | ].
  intros [ | ]; eexists; (split; [vm_compute; reflexivity | ]);
    (split; [reflexivity | discriminate]).
Qed.

(** ** Signing *)

Lemma G_ORDER_half_value : G_ORDER_half = 2 ^ 255.
Proof. vm_compute. reflexivity. Qed.

(** Whatever nonce is drawn, the returned [s] is at most [2^255], the float
    the code compares with; [s] is replaced by [n - s] exactly when it
    exceeds that float. *)
Lemma sign_with_nonce_s (fuel : nat) (self : PrivateKey) (z k : Z)
  (sig : Signature) :
  sign_with_nonce fuel self z k = Ok sig ->
  exists s0, 0 <= s0 < G_ORDER
             /\ sig_s sig = (if s0 >? 2 ^ 255 then G_ORDER - s0 else s0)
             /\ 0 <= sig_s sig <= 2 ^ 255.
Proof.
  unfold sign_with_nonce. intros H.
  apply bind_Ok_inv in H. destruct H as (kG & _ & H).
  apply bind_Ok_inv in H. destruct H as (r & _ & H).
  apply bind_Ok_inv in H. destruct H as (k_inv & _ & H).
  rewrite py_mod_nonzero in H by discriminate. cbn [bind] in H.
  rewrite G_ORDER_half_value in H.
  set (s0 := ((z + r * secret self) * k_inv) mod G_ORDER) in *.
  assert (Hsig : sig_s sig = (if s0 >? 2 ^ 255 then G_ORDER - s0 else s0)).
  { apply (f_equal (fun m => match m with
                             | Ok g => sig_s g
                             | _ => 0
                             end)) in H.
    symmetry. exact H. }
  rewrite Hsig. clear H Hsig.
  assert (Hs0 : 0 <= s0 < G_ORDER)
    by (apply Z.mod_pos_bound; reflexivity).
  exists s0. split; [exact Hs0 | split; [reflexivity | ]].
  assert (Hn : G_ORDER < 2 ^ 256) by reflexivity.
  destruct (s0 >? 2 ^ 255) eqn:E.
  - apply Z.gtb_lt in E. change (2 ^ 256) with (2 * 2 ^ 255) in Hn. lia.
  - rewrite Z.gtb_ltb in E. apply Z.ltb_ge in E. lia.
Qed.

Lemma class_ok_S256 : class_ok S256IntegerC EC_PRIME.
Proof. intros _. reflexivity. Qed.

Lemma EC_PRIME_gt_1 : 1 < EC_PRIME.
Proof. reflexivity. Qed.

Lemma double_G :
  is_prime EC_PRIME = true ->
  EllipcCurvePoint_add G G
  = Ok (Some (mkPoint S256PointC
                (Some (mkFE S256IntegerC G2_X EC_PRIME,
                       mkFE S256IntegerC G2_Y EC_PRIME)) A B)).
Proof.
  intros Ht. unfold G, A, B.
  rewrite (add_eval_tangent EC_PRIME EC_PRIME_gt_1 Ht);
    try exact class_ok_S256; try reflexivity.
  - replace (tangent_sum EC_PRIME (EC_A mod EC_PRIME)
               (G_X mod EC_PRIME) (G_Y mod EC_PRIME))
      with (G2_X, G2_Y) by (vm_compute; reflexivity).
    cbn [fst snd EllipcCurvePoint_init].
    rewrite (on_curve_eval EC_PRIME EC_PRIME_gt_1 Ht)
      by exact class_ok_S256.
    replace (pow_mod G2_Y (2 mod (EC_PRIME - 1)) EC_PRIME
             =? ((pow_mod G2_X (3 mod (EC_PRIME - 1)) EC_PRIME
                  + (EC_A mod EC_PRIME * G2_X) mod EC_PRIME) mod EC_PRIME
                 + EC_B mod EC_PRIME) mod EC_PRIME)
      with true by (vm_compute; reflexivity).
    reflexivity.
  - intros _. split; reflexivity.
  - vm_compute. discriminate.
Qed.

Lemma rmul_loop_one (current acc : option EllipcCurvePoint) :
  rmul_loop 1 1 current acc
  = (acc' <- py_add acc current ;;
     current' <- py_add current current ;;
     Ok acc').
Proof.
  cbn [rmul_loop]. change (1 =? 0) with false.
  change (Z.land 1 1 =? 0) with false. change (Z.shiftr 1 1) with 0.
  cbv iota. destruct (py_add acc current); reflexivity.
Qed.

Lemma one_times_G :
  is_prime EC_PRIME = true -> Point_rmul 1 1 G = Ok (Some G).
Proof.
  intros Ht. unfold Point_rmul, S256Point_rmul, EllipcCurvePoint_rmul.
  change (pcls G) with S256PointC. change (pt_a G) with A.
  change (pt_b G) with B. cbv iota.
  rewrite py_mod_nonzero by discriminate. cbn [bind].
  change (1 mod G_ORDER) with 1.
  rewrite Point_new_S256_infinity. cbn [bind].
  rewrite rmul_loop_one.
  assert (E : py_add (Some S256_infinity) (Some G) = Ok (Some G)).
  { unfold py_add, EllipcCurvePoint_add, S256_infinity.
    cbn [pt_a pt_b coords]. change (pt_a G) with A. change (pt_b G) with B.
    rewrite !ModularFieldInteger_eq_refl. reflexivity. }
  rewrite E. cbn [bind py_add]. rewrite double_G by exact Ht. reflexivity.
Qed.

(** The body of [sign] compares [s] with the float [G_ORDER / 2], which is
    [2^255], above half the group order; an [s] between the two is returned
    as it is.  With the secret 1, the message hash [2^255 - G_X] and the
    nonce taken to be 1, the body returns [s = 2^255]. *)
Lemma sign_keeps_s_above_half_order :
  is_prime EC_PRIME = true ->
  G_ORDER_half = 2 ^ 255
  /\ G_ORDER / 2 < 2 ^ 255
  /\ sign_with_nonce 1 (mkPrivateKey 1 (Some G)) (2 ^ 255 - G_X) 1
     = Ok (mkSignature G_X (2 ^ 255)).
Proof.
  intros Ht. split; [exact G_ORDER_half_value | split; [reflexivity | ]].
  unfold sign_with_nonce. rewrite one_times_G by exact Ht. cbn [bind].
  change (x_value (Some G)) with (@Ok Z (G_X mod EC_PRIME)). cbn [bind secret].
  rewrite py_pow3_nonneg by (first [discriminate | vm_compute; discriminate]).
  cbn [bind].
  replace (pow_mod 1 (G_ORDER - 2) G_ORDER) with 1 by (vm_compute; reflexivity).
  rewrite py_mod_nonzero by discriminate. cbn [bind].
  rewrite G_ORDER_half_value.
  replace (((2 ^ 255 - G_X + G_X mod EC_PRIME * 1) * 1) mod G_ORDER)
    with (2 ^ 255) by (vm_compute; reflexivity).
  replace (G_X mod EC_PRIME) with G_X by (vm_compute; reflexivity).
  reflexivity.
Qed.


(** ** The module constants and the first multiples of [G] *)

(** With the secp256k1 prime accepted by the primality test, the three
    constructor calls at module level return the constants [A], [B] and
    [G]. *)
Lemma module_constants :
  is_prime EC_PRIME = true ->
  S256Integer_init EC_A EC_PRIME = Ok A
  /\ S256Integer_init EC_B EC_PRIME = Ok B
  /\ S256Point_of_ints G_X G_Y A B = Ok G.
Proof.
  intros Ht.
  assert (Hnew : forall v, S256Integer_init v EC_PRIME
                           = Ok (mkFE S256IntegerC (v mod EC_PRIME) EC_PRIME)).
  { intros v.
    exact (FE_new_eval EC_PRIME EC_PRIME_gt_1 Ht S256IntegerC v
             class_ok_S256). }
  split; [apply Hnew | split; [apply Hnew | ]].
  unfold S256Point_of_ints. rewrite !ModularFieldInteger_eq_refl. cbn [negb].
  rewrite !Hnew. cbn [bind EllipcCurvePoint_init]. unfold A, B.
  rewrite (on_curve_eval EC_PRIME EC_PRIME_gt_1 Ht) by exact class_ok_S256.
  replace (pow_mod (G_Y mod EC_PRIME) (2 mod (EC_PRIME - 1)) EC_PRIME
           =? ((pow_mod (G_X mod EC_PRIME) (3 mod (EC_PRIME - 1)) EC_PRIME
                + (EC_A mod EC_PRIME * (G_X mod EC_PRIME)) mod EC_PRIME)
               mod EC_PRIME + EC_B mod EC_PRIME) mod EC_PRIME)
    with true by (vm_compute; reflexivity).
  reflexivity.
Qed.

(** The secret 1 has the generator as its public point. *)
Lemma PrivateKey_one :
  is_prime EC_PRIME = true ->
  PrivateKey_init 1 1 = Ok (mkPrivateKey 1 (Some G)).
Proof.
  intros Ht. unfold PrivateKey_init. rewrite one_times_G by exact Ht.
  reflexivity.
Qed.

(** [(n + 1) * G] is computed as [1 * G]. *)
Lemma order_plus_one_times_G :
  is_prime EC_PRIME = true -> Point_rmul 1 (G_ORDER + 1) G = Ok (Some G).
Proof.
  intros Ht. rewrite Point_rmul_G_mod.
  change ((G_ORDER + 1) mod G_ORDER) with (1 mod G_ORDER).
  rewrite <- Point_rmul_G_mod. apply one_times_G. exact Ht.
Qed.

(** X18.  Every signature [sign] returns has [s] between 0 and [2^255],
    the float [G_ORDER / 2] that [s] is compared with: a larger [s] has been
    replaced by [n - s]. *)
Theorem sign_s_bound (fuel : nat) (self : PrivateKey) (z : Z) (sig : Signature) :
  PrivateKey_sign fuel self z = Ok sig -> 0 <= sig_s sig <= 2 ^ 255.
Proof.
  unfold PrivateKey_sign. intros H.
  apply bind_Ok_inv in H. destruct H as (k & _ & H).
  destruct (sign_with_nonce_s _ _ _ _ _ H) as (s0 & _ & _ & Hs).
  exact Hs.
Qed.


(** * Further properties of the module *)

(** ** Field arithmetic *)

Lemma fermat_inverse_prime (p d : Z) :
  Z.prime p -> ~ (p | d) -> (p | d * pow_mod (d mod p) (p - 2) p - 1).
Proof.
  intros Hprime Hd. pose proof (Z.prime_ge_2 p Hprime) as Hp.
  apply cong_divide.
  rewrite pow_mod_spec by lia.
  rewrite Z.mod_pow_l.
  rewrite Zmult_mod_idemp_r.
  replace (d * d ^ (p - 2)) with (d ^ (p - 1)).
  - rewrite Z.fermat_nz; [symmetry; apply Z.mod_1_l; lia | exact Hprime | ].
    intros H0. apply Hd. apply Z.mod_divide; [lia | exact H0].
  - replace (p - 1) with (Z.succ (p - 2)) by lia.
    rewrite Z.pow_succ_r by lia. reflexivity.
Qed.

Lemma not_divide_in_range (p v : Z) : 0 <= v < p -> v <> 0 -> ~ (p | v).
Proof. intros Hv H0 Hd. apply Z.divide_pos_le in Hd; lia. Qed.

(** The inverse that [__truediv__] computes, in a prime field. *)
Lemma inverse_in_prime_field (p v : Z) :
  Z.prime p -> 0 <= v < p -> v <> 0 ->
  (v * pow_mod v (p - 2) p) mod p = 1.
Proof.
  intros Hprime Hv H0. pose proof (Z.prime_ge_2 p Hprime) as Hp.
  pose proof (fermat_inverse_prime p v Hprime
                (not_divide_in_range p v Hv H0)) as H.
  rewrite (Z.mod_small v p) in H by exact Hv.
  apply cong_divide in H. rewrite H. apply Z.mod_1_l. lia.
Qed.

(** X1.  Addition and subtraction undo each other: [(x + y) - y] and
    [(x - y) + y] both return [x] itself. *)
Theorem add_sub_cancel (x y : ModularFieldInteger) :
  field_element_ok x -> field_element_ok y -> prime x = prime y ->
  (exists s, ModularFieldInteger_add x y = Ok s
             /\ ModularFieldInteger_sub s y = Ok x)
  /\ (exists d, ModularFieldInteger_sub x y = Ok d
                /\ ModularFieldInteger_add d y = Ok x).
Proof.
  destruct x as [c v p], y as [c' v' p']. intros Hx Hy Hxy.
  cbn [prime] in Hxy. subst p'.
  destruct Hx as (Hp & Ht & Hv & Hc). cbn [prime value fcls] in *.
  split; eexists.
  - rewrite add_eval by assumption. split; [reflexivity | ].
    rewrite sub_eval by assumption.
    rewrite Zminus_mod_idemp_l.
    replace (v + v' - v') with v by ring.
    rewrite Z.mod_small by exact Hv. reflexivity.
  - rewrite sub_eval by assumption. split; [reflexivity | ].
    rewrite add_eval by assumption.
    rewrite Zplus_mod_idemp_l.
    replace (v - v' + v') with v by ring.
    rewrite Z.mod_small by exact Hv. reflexivity.
Qed.

(** X2.  In a prime field, division by a nonzero element and multiplication
    by it undo each other: [(x / y) * y] and [(x * y) / y] both return [x]
    itself. *)
Theorem div_mul_cancel (x y : ModularFieldInteger) :
  field_element_ok x -> field_element_ok y -> prime x = prime y ->
  Z.prime (prime x) -> value y <> 0 ->
  (exists q, ModularFieldInteger_truediv x y = Ok q
             /\ ModularFieldInteger_mul q y = Ok x)
  /\ (exists m, ModularFieldInteger_mul x y = Ok m
                /\ ModularFieldInteger_truediv m y = Ok x).
Proof.
  destruct x as [c v p], y as [c' v' p']. intros Hx Hy Hxy Hprime Hnz.
  cbn [prime] in Hxy. subst p'.
  destruct Hx as (Hp & Ht & Hv & Hc). destruct Hy as (_ & _ & Hv' & _).
  cbn [prime value fcls] in *.
  pose proof (inverse_in_prime_field p v' Hprime Hv' Hnz) as Hinv.
  set (i := pow_mod v' (p - 2) p) in *.
  split; eexists.
  - rewrite truediv_eval by assumption. split; [reflexivity | ].
    rewrite mul_eval by assumption. fold i.
    rewrite Zmult_mod_idemp_l.
    replace (v * i * v') with (v * (v' * i)) by ring.
    rewrite <- Zmult_mod_idemp_r, Hinv, Z.mul_1_r.
    rewrite Z.mod_small by exact Hv. reflexivity.
  - rewrite mul_eval by assumption. split; [reflexivity | ].
    rewrite truediv_eval by assumption. fold i.
    rewrite Zmult_mod_idemp_l.
    replace (v * v' * i) with (v * (v' * i)) by ring.
    rewrite <- Zmult_mod_idemp_r, Hinv, Z.mul_1_r.
    rewrite Z.mod_small by exact Hv. reflexivity.
Qed.

(** X3.  Division by the zero element raises nothing: over a modulus above
    2 the quotient is the zero element, and over the modulus 2, where the
    exponent [p - 2] is 0, it is the dividend. *)
Theorem div_by_zero_returns (x y : ModularFieldInteger) :
  field_element_ok x -> prime x = prime y -> value y = 0 ->
  ModularFieldInteger_truediv x y
  = Ok (if prime x =? 2 then x else mkFE (fcls x) 0 (prime x)).
Proof.
  destruct x as [c v p], y as [c' v' p']. intros Hx Hxy Hy.
  cbn [prime value] in Hxy, Hy. subst p' v'.
  destruct Hx as (Hp & Ht & Hv & Hc). cbn [prime value fcls] in *.
  rewrite truediv_eval by assumption.
  destruct (p =? 2) eqn:E.
  - apply Z.eqb_eq in E. subst p.
    assert (Hcases : v = 0 \/ v = 1) by lia.
    destruct Hcases as [-> | ->]; reflexivity.
  - apply Z.eqb_neq in E.
    assert (H0 : pow_mod 0 (p - 2) p = 0).
    { destruct (p - 2) as [ | e | e] eqn:Ee; try lia.
      cbn [pow_mod]. apply pow_mod_pos_zero. }
    rewrite H0, Z.mul_0_r, Zmod_0_l. reflexivity.
Qed.

(** X4.  A negative exponent inverts: in a prime field, [x ** -1] returns
    an element whose product with a nonzero [x] is the element one, and it
    is the element [one / x] returns. *)
Theorem pow_minus_one_inverts (x : ModularFieldInteger) :
  field_element_ok x -> Z.prime (prime x) -> value x <> 0 ->
  exists i,
    ModularFieldInteger_pow x (-1) = Ok i
    /\ ModularFieldInteger_mul x i = Ok (mkFE (fcls x) 1 (prime x))
    /\ ModularFieldInteger_truediv (mkFE (fcls x) 1 (prime x)) x = Ok i.
Proof.
  destruct x as [c v p]. intros Hx Hprime Hnz.
  destruct Hx as (Hp & Ht & Hv & Hc). cbn [prime value fcls] in *.
  assert (He : (-1) mod (p - 1) = p - 2).
  { destruct (Z.eq_dec p 2) as [-> | Hne]; [reflexivity | ].
    symmetry. apply (Z.mod_unique _ _ (-1)); lia. }
  pose proof (inverse_in_prime_field p v Hprime Hv Hnz) as Hinv.
  eexists. rewrite pow_eval by assumption. split; [reflexivity | ].
  rewrite He. split.
  - rewrite mul_eval by assumption. rewrite Hinv. reflexivity.
  - rewrite truediv_eval by assumption. rewrite Z.mul_1_l.
    rewrite Z.mod_small by (apply pow_mod_range; lia). reflexivity.
Qed.

(** X5.  Zero raised to a multiple of [prime - 1] is one, not zero: the
    exponent is reduced to 0 first, and [pow(0, 0, p)] is 1.  So [0 ** 0]
    and [0 ** (p - 1)] return the element one; over the moduli 2 and 3 so
    does [0 ** 2]. *)
Theorem pow_multiple_of_prime_minus_1 (x : ModularFieldInteger) (k : Z) :
  field_element_ok x ->
  ModularFieldInteger_pow x (k * (prime x - 1))
  = Ok (mkFE (fcls x) 1 (prime x)).
Proof.
  destruct x as [c v p]. intros (Hp & Ht & Hv & Hc).
  cbn [prime value fcls] in *.
  rewrite pow_eval by assumption.
  rewrite Z.mod_mul by lia. cbn [pow_mod].
  rewrite Z.mod_1_l by lia. reflexivity.
Qed.


(** X6.  The ring laws on well-formed elements of one field: addition and
    multiplication are associative, multiplication distributes over
    addition, and both are commutative up to [==] (the class of a result is
    the class of the left operand). *)
Theorem field_ring_laws (x y z : ModularFieldInteger) :
  field_element_ok x -> field_element_ok y -> field_element_ok z ->
  prime x = prime y -> prime x = prime z ->
  (s <- ModularFieldInteger_add x y ;; ModularFieldInteger_add s z)
  = (t <- ModularFieldInteger_add y z ;; ModularFieldInteger_add x t)
  /\ (s <- ModularFieldInteger_mul x y ;; ModularFieldInteger_mul s z)
     = (t <- ModularFieldInteger_mul y z ;; ModularFieldInteger_mul x t)
  /\ (t <- ModularFieldInteger_add y z ;; ModularFieldInteger_mul x t)
     = (u <- ModularFieldInteger_mul x y ;;
        v <- ModularFieldInteger_mul x z ;;
        ModularFieldInteger_add u v)
  /\ (exists s s', ModularFieldInteger_add x y = Ok s
                   /\ ModularFieldInteger_add y x = Ok s'
                   /\ ModularFieldInteger_eq s s' = true)
  /\ (exists m m', ModularFieldInteger_mul x y = Ok m
                   /\ ModularFieldInteger_mul y x = Ok m'
                   /\ ModularFieldInteger_eq m m' = true).
Proof.
  destruct x as [c v p], y as [c' v' p'], z as [c'' v'' p''].
  intros Hx Hy Hz Hxy Hxz. cbn [prime] in Hxy, Hxz. subst p' p''.
  destruct Hx as (Hp & Ht & Hv & Hc). destruct Hy as (_ & _ & Hv' & Hc').
  cbn [prime value fcls] in *.
  split; [ | split; [ | split; [ | split]]].
  - rewrite !add_eval by assumption. cbn [bind].
    rewrite !add_eval by assumption. apply f_equal.
    apply (f_equal (fun u => mkFE c u p)).
    cong_strip. unfold eqm. apply (f_equal (fun u => u mod p)). ring.
  - rewrite !mul_eval by assumption. cbn [bind].
    rewrite !mul_eval by assumption. apply f_equal.
    apply (f_equal (fun u => mkFE c u p)).
    cong_strip. unfold eqm. apply (f_equal (fun u => u mod p)). ring.
  - rewrite add_eval, !mul_eval by assumption. cbn [bind].
    rewrite mul_eval, add_eval by assumption. apply f_equal.
    apply (f_equal (fun u => mkFE c u p)).
    cong_strip. unfold eqm. apply (f_equal (fun u => u mod p)). ring.
  - do 2 eexists. rewrite !add_eval by assumption.
    split; [reflexivity | split; [reflexivity | ]].
    rewrite ModularFieldInteger_eq_mk. apply Z.eqb_eq.
    apply (f_equal (fun u => u mod p)). ring.
  - do 2 eexists. rewrite !mul_eval by assumption.
    split; [reflexivity | split; [reflexivity | ]].
    rewrite ModularFieldInteger_eq_mk. apply Z.eqb_eq.
    apply (f_equal (fun u => u mod p)). ring.
Qed.


(** ** DER decoding and the shape of DER encodings *)

Lemma Signature_parse_layout (rbody sbody : list byte) :
  (4 + length rbody + length sbody < 256)%nat ->
  Signature_parse (der_layout rbody sbody)
  = Ok (mkSignature (from_bytes rbody) (from_bytes sbody)).
Proof.
  intros Hlen. unfold der_layout.
  match goal with |- Signature_parse ?l = _ => set (bin := l) end.
  unfold Signature_parse.
  assert (Htotal : Z.of_nat (length bin)
                   = 6 + Z.of_nat (length rbody) + Z.of_nat (length sbody)).
  { subst bin. cbn [length app]. rewrite length_app. cbn [length]. lia. }
  set (total := Z.of_nat (length bin)) in *. subst bin.
  cbn [read_byte bind app].
  rewrite !unsigned_of_Z_small by lia.
  change (48 =? 48) with true. change (2 =? 2) with true. cbn [negb].
  replace (Z.of_nat (4 + length rbody + length sbody) + 2 =? total) with true
    by (symmetry; apply Z.eqb_eq; lia).
  cbn [negb].
  rewrite (read_exact (length rbody) rbody) by reflexivity.
  cbn [read_byte bind].
  rewrite !unsigned_of_Z_small by lia.
  change (2 =? 2) with true. cbn [negb].
  rewrite (read_all sbody).
  replace (total =? 6 + Z.of_nat (length rbody) + Z.of_nat (length sbody))
    with true by (symmetry; apply Z.eqb_eq; lia).
  reflexivity.
Qed.

Lemma byte_of_unsigned (b : byte) (z : Z) :
  byte.unsigned b = z -> b = byte.of_Z z.
Proof. intros <-. symmetry. apply byte.of_Z_unsigned. Qed.

Lemma if_negb_Ok {T : Type} (c : bool) (m : result T) (v : T) :
  (if negb c then Raise SyntaxError else m) = Ok v -> c = true /\ m = Ok v.
Proof. destruct c; cbn [negb]; [auto | discriminate]. Qed.

(** X7.  [Signature.parse] returns exactly on the byte strings of the DER
    layout: tag [0x30], a length byte equal to the length of the rest, and
    two INTEGER fields whose declared lengths are their real lengths, with
    nothing after the second; each body is read as an unsigned big-endian
    number, whatever its leading bytes. *)
Theorem Signature_parse_iff_layout (signature_bin : list byte)
  (sig : Signature) :
  Signature_parse signature_bin = Ok sig
  <-> exists rbody sbody,
        signature_bin = der_layout rbody sbody
        /\ (4 + length rbody + length sbody < 256)%nat
        /\ sig = mkSignature (from_bytes rbody) (from_bytes sbody).
Proof.
  split.
  - unfold Signature_parse.
    set (total := Z.of_nat (length signature_bin)).
    assert (Htotal : total = Z.of_nat (length signature_bin)) by reflexivity.
    clearbody total.
    destruct signature_bin as [ | b0 st]; [discriminate | ].
    cbn [read_byte bind]. intros H.
    apply if_negb_Ok in H. destruct H as [E0 H]. apply Z.eqb_eq in E0.
    destruct st as [ | b1 st]; [discriminate | ].
    cbn [read_byte bind] in H.
    apply if_negb_Ok in H. destruct H as [E1 H]. apply Z.eqb_eq in E1.
    destruct st as [ | b2 st]; [discriminate | ].
    cbn [read_byte bind] in H.
    apply if_negb_Ok in H. destruct H as [E2 H]. apply Z.eqb_eq in E2.
    destruct st as [ | b3 st]; [discriminate | ].
    cbn [read_byte bind] in H. unfold read in H.
    pose proof (firstn_skipn (Z.to_nat (byte.unsigned b3)) st) as Hsplit.
    set (rbody := firstn (Z.to_nat (byte.unsigned b3)) st) in *.
    destruct (skipn (Z.to_nat (byte.unsigned b3)) st) as [ | m st'] eqn:Hskip;
      [discriminate | ].
    cbn [read_byte bind] in H.
    apply if_negb_Ok in H. destruct H as [E3 H]. apply Z.eqb_eq in E3.
    destruct st' as [ | b4 sbody]; [discriminate | ].
    cbn [read_byte bind] in H.
    apply if_negb_Ok in H. destruct H as [E4 H]. apply Z.eqb_eq in E4.
    pose proof (byte.unsigned_range b3) as R3.
    pose proof (byte.unsigned_range b4) as R4.
    pose proof (byte.unsigned_range b1) as R1.
    assert (Hr : length rbody = Z.to_nat (byte.unsigned b3)).
    { subst rbody. apply firstn_length_le.
      assert (Hs : length (skipn (Z.to_nat (byte.unsigned b3)) st)
                   = (length st - Z.to_nat (byte.unsigned b3))%nat)
        by apply length_skipn.
      rewrite Hskip in Hs. cbn [length] in Hs. lia. }
    assert (Hst : length st = (length rbody + 2 + length sbody)%nat).
    { rewrite <- Hsplit, length_app. cbn [length]. lia. }
    cbn [length] in Htotal.
    assert (Hs : length sbody = Z.to_nat (byte.unsigned b4)) by lia.
    rewrite firstn_all2 in H by lia.
    injection H as <-.
    exists rbody, sbody. split; [ | split; [lia | reflexivity]].
    unfold der_layout. rewrite <- Hsplit. cbn [app].
    rewrite (byte_of_unsigned b0 48 E0), (byte_of_unsigned m 2 E3),
      (byte_of_unsigned b2 2 E2).
    rewrite (byte_of_unsigned b1
               (Z.of_nat (4 + length rbody + length sbody))) by lia.
    rewrite (byte_of_unsigned b3 (Z.of_nat (length rbody))) by lia.
    rewrite (byte_of_unsigned b4 (Z.of_nat (length sbody))) by lia.
    reflexivity.
  - intros (rbody & sbody & -> & Hlen & ->).
    apply Signature_parse_layout. exact Hlen.
Qed.

Lemma lstrip0_head (bs : list byte) (b : byte) (rest : list byte) :
  lstrip0 bs = b :: rest -> byte.unsigned b <> 0.
Proof.
  induction bs as [ | b' bs IH]; cbn [lstrip0]; [discriminate | ].
  destruct (byte.unsigned b' =? 0) eqn:E.
  - exact IH.
  - intros [= -> _]. apply Z.eqb_neq. exact E.
Qed.

Lemma high_bit_test (b : byte) :
  (Z.land (byte.unsigned b) 128 =? 0) = (byte.unsigned b <? 128).
Proof. destruct b; reflexivity. Qed.

Lemma der_integer_canonical (n : Z) :
  1 <= n < 2 ^ 256 ->
  exists body,
    der_integer n
    = Ok (byte.of_Z 2 :: byte.of_Z (Z.of_nat (length body)) :: body)
    /\ (1 <= length body <= 33)%nat
    /\ from_bytes body = n
    /\ der_minimal body.
Proof.
  intros Hn. unfold der_integer.
  rewrite to_bytes_in_range by (change (256 ^ Z.of_nat 32) with (2 ^ 256); lia).
  cbn [bind].
  assert (Hfrom : from_bytes (lstrip0 (be_bytes 32 n)) = n).
  { rewrite from_bytes_lstrip0. apply from_bytes_be_bytes.
    change (256 ^ Z.of_nat 32) with (2 ^ 256). lia. }
  assert (Hlen : (length (lstrip0 (be_bytes 32 n)) <= 32)%nat).
  { pose proof (length_lstrip0 (be_bytes 32 n)) as H.
    rewrite length_be_bytes in H. exact H. }
  destruct (lstrip0 (be_bytes 32 n)) as [ | b0 rest] eqn:Hstrip.
  { change (from_bytes []) with 0 in Hfrom. lia. }
  pose proof (lstrip0_head _ _ _ Hstrip) as Hhead.
  pose proof (byte.unsigned_range b0) as Hb0.
  cbn [first_byte bind]. cbn [length] in Hlen.
  rewrite high_bit_test.
  destruct (byte.unsigned b0 <? 128) eqn:Hhigh.
  - apply Z.ltb_lt in Hhigh.
    exists (b0 :: rest). cbn [length].
    split; [ | split; [lia | split; [exact Hfrom | ]]].
    + unfold py_bytes.
      change ((2 <? 0) || (256 <=? 2)) with false. cbv iota.
      destruct ((Z.of_nat (S (length rest)) <? 0)
                || (256 <=? Z.of_nat (S (length rest)))) eqn:Hb.
      { apply orb_true_iff in Hb. destruct Hb as [Hb | Hb];
          [apply Z.ltb_lt in Hb | apply Z.leb_le in Hb]; lia. }
      reflexivity.
    + cbn [der_minimal]. split; [exact Hhigh | intros H0; contradiction].
  - apply Z.ltb_ge in Hhigh.
    exists (Byte.x00 :: b0 :: rest). cbn [length].
    split; [ | split; [lia | split]].
    + unfold py_bytes.
      change ((2 <? 0) || (256 <=? 2)) with false. cbv iota.
      destruct ((Z.of_nat (S (S (length rest))) <? 0)
                || (256 <=? Z.of_nat (S (S (length rest))))) eqn:Hb.
      { apply orb_true_iff in Hb. destruct Hb as [Hb | Hb];
          [apply Z.ltb_lt in Hb | apply Z.leb_le in Hb]; lia. }
      reflexivity.
    + rewrite from_bytes_zero_head by reflexivity. exact Hfrom.
    + cbn [der_minimal]. split; [reflexivity | intros _; exact Hhigh].
Qed.

(** X8.  For [1 <= r, s < 2^256], [der] returns the DER layout of two
    bodies in shortest positive form that read back as [r] and [s]; the
    encoding is 8 to 72 bytes long. *)
Theorem Signature_der_canonical (r s : Z) :
  1 <= r < 2 ^ 256 -> 1 <= s < 2 ^ 256 ->
  exists rbody sbody,
    Signature_der (mkSignature r s) = Ok (der_layout rbody sbody)
    /\ der_minimal rbody /\ der_minimal sbody
    /\ from_bytes rbody = r /\ from_bytes sbody = s
    /\ (8 <= length (der_layout rbody sbody) <= 72)%nat.
Proof.
  intros Hr Hs.
  destruct (der_integer_canonical r Hr) as (rbody & Er & Lr & Vr & Mr).
  destruct (der_integer_canonical s Hs) as (sbody & Es & Ls & Vs & Ms).
  exists rbody, sbody.
  assert (Hlen : length (der_layout rbody sbody)
                 = (6 + length rbody + length sbody)%nat).
  { unfold der_layout. cbn [length app]. rewrite length_app.
    cbn [length]. lia. }
  split; [ | repeat split; try assumption; lia].
  unfold Signature_der. cbn [sig_r sig_s]. rewrite Er, Es. cbn [bind].
  set (res := (byte.of_Z 2 :: byte.of_Z (Z.of_nat (length rbody)) :: rbody)
              ++ byte.of_Z 2 :: byte.of_Z (Z.of_nat (length sbody)) :: sbody).
  assert (Hres : length res = (4 + length rbody + length sbody)%nat).
  { subst res. rewrite length_app. cbn [length]. lia. }
  rewrite Hres. unfold py_bytes.
  change ((48 <? 0) || (256 <=? 48)) with false. cbv iota.
  destruct ((Z.of_nat (4 + length rbody + length sbody) <? 0)
            || (256 <=? Z.of_nat (4 + length rbody + length sbody))) eqn:Hb.
  { apply orb_true_iff in Hb. destruct Hb as [Hb | Hb];
      [apply Z.ltb_lt in Hb | apply Z.leb_le in Hb]; lia. }
  reflexivity.
Qed.

(** ** SEC encoding of a point *)

(** X9.  [sec] raises [AttributeError] on the point at infinity.  On a
    finite point whose coordinates fit in 32 bytes it returns 33 bytes
    (prefix [0x02] for an even [y], [0x03] for an odd one, then [x]) or 65
    bytes (prefix [0x04], then [x], then [y]), from which the coordinates
    read back; a coordinate [x] that does not fit raises
    [OverflowError]. *)
Theorem S256Point_sec_layout (self : EllipcCurvePoint) :
  match coords self with
  | None => forall compressed,
      S256Point_sec self compressed = Raise AttributeError
  | Some (x, y) =>
      (0 <= value x < 2 ^ 256 -> 0 <= value y < 2 ^ 256 ->
       exists xb yb,
         length xb = 32%nat /\ length yb = 32%nat
         /\ from_bytes xb = value x /\ from_bytes yb = value y
         /\ S256Point_sec self true
            = Ok ((if value y mod 2 =? 0 then Byte.x02 else Byte.x03) :: xb)
         /\ S256Point_sec self false = Ok (Byte.x04 :: xb ++ yb))
      /\ (value x < 0 \/ 2 ^ 256 <= value x ->
          forall compressed,
            S256Point_sec self compressed = Raise OverflowError)
  end.
Proof.
  unfold S256Point_sec. destruct (coords self) as [[x y] | ].
  - split.
    + intros Hx Hy.
      exists (be_bytes 32 (value x)), (be_bytes 32 (value y)).
      rewrite !length_be_bytes.
      rewrite !from_bytes_be_bytes
        by (change (256 ^ Z.of_nat 32) with (2 ^ 256); assumption).
      rewrite !to_bytes_in_range
        by (change (256 ^ Z.of_nat 32) with (2 ^ 256); assumption).
      rewrite py_mod_nonzero by discriminate.
      repeat split.
    + intros Hx compressed.
      rewrite to_bytes_out_of_range
        by (change (256 ^ Z.of_nat 32) with (2 ^ 256); exact Hx).
      rewrite py_mod_nonzero by discriminate.
      destruct compressed; reflexivity.
  - intros compressed. reflexivity.
Qed.


(** ** The constructor of points *)

(** X10.  The constructor accepts a pair of coordinates exactly when it
    satisfies the curve equation modulo [p], over a prime field with
    [p > 3], and raises [ValueError] otherwise; it raises [ValueError] when
    one coordinate only is [None], and accepts the point at infinity with
    any coefficients. *)
Theorem constructor_checks_curve_equation (c : PointClass)
  (x y a b : ModularFieldInteger) :
  field_element_ok x -> field_element_ok y -> field_element_ok a ->
  prime y = prime x -> prime a = prime x -> prime b = prime x ->
  Z.prime (prime x) -> 3 < prime x ->
  EllipcCurvePoint_init c (Some x) (Some y) a b
  = (if (value y ^ 2 - (value x ^ 3 + value a * value x + value b))
        mod prime x =? 0
     then Ok (mkPoint c (Some (x, y)) a b)
     else Raise ValueError)
  /\ EllipcCurvePoint_init c (Some x) None a b = Raise ValueError
  /\ EllipcCurvePoint_init c None (Some y) a b = Raise ValueError
  /\ EllipcCurvePoint_init c None None a b = Ok (mkPoint c None a b).
Proof.
  destruct x as [cx x p], y as [cy y py], a as [ca a pa], b as [cb b pb].
  intros Hx Hy Ha Ey Ea Eb Hprime H3. cbn [prime value] in *.
  subst py pa pb.
  destruct Hx as (Hp & Ht & _ & Hcx). destruct Hy as (_ & _ & _ & Hcy).
  destruct Ha as (_ & _ & _ & Hca). cbn [prime value fcls] in *.
  split; [ | repeat split].
  cbn [EllipcCurvePoint_init].
  rewrite on_curve_eval by assumption. cbn [bind].
  pose proof (curve_check_iff p Hprime H3 x y a b) as Hiff.
  replace (y ^ 2 - (x ^ 3 + a * x + b))
    with (y * y - (x * x * x + a * x + b)) by ring.
  destruct (pow_mod y (2 mod (p - 1)) p
            =? ((pow_mod x (3 mod (p - 1)) p + (a * x) mod p) mod p + b) mod p).
  - assert (Hd : (p | y * y - (x * x * x + a * x + b)))
      by (apply Hiff; reflexivity).
    apply Z.mod_divide in Hd; [ | lia]. rewrite Hd. reflexivity.
  - destruct ((y * y - (x * x * x + a * x + b)) mod p =? 0) eqn:E;
      [ | reflexivity].
    apply Z.eqb_eq in E. apply Z.mod_divide in E; [ | lia].
    apply Hiff in E. discriminate E.
Qed.

(** ** Addition of points *)

Lemma add_finite_spec
  (P Q : EllipcCurvePoint) (x1 y1 x2 y2 : ModularFieldInteger) :
  point_ok P -> point_ok Q -> same_curve P Q ->
  coords P = Some (x1, y1) -> coords Q = Some (x2, y2) ->
  Z.prime (prime x1) -> 3 < prime x1 ->
  exists R,
    EllipcCurvePoint_add P Q = Ok (Some R)
    /\ on_curve_of P R
    /\ match coords R with
       | None => vertical x1 y1 x2 y2 = true
       | Some (x3, y3) =>
           vertical x1 y1 x2 y2 = false
           /\ prime x3 = prime x1 /\ prime y3 = prime x1
           /\ let p := prime x1 in
              let s :=
                if ModularFieldInteger_eq x1 x2
                then tangent_slope p (value (pt_a P)) (value x1) (value y1)
                else chord_slope p (value x1) (value y1) (value x2) (value y2)
              in
              value x3 = sum_x p s (value x1) (value x2)
              /\ value y3 = sum_y p s (value x1) (value y1) (value x3)
       end.
Proof.
  intros HP HQ [Ha Hb] HcP HcQ Hprime H3. unfold on_curve_of.
  pose proof (point_ok_on_curve P x1 y1 HP HcP) as On1.
  pose proof (point_ok_on_curve Q x2 y2 HQ HcQ) as On2.
  pose proof (point_ok_class P HP) as Hcls.
  destruct HP as (HaP & HbP & HxyP & _). destruct HQ as (HaQ & _ & HxyQ & _).
  destruct (HxyP x1 y1 HcP) as [Hx1 Hy1].
  destruct (HxyQ x2 y2 HcQ) as [Hx2 Hy2].
  destruct (on_curve_same_field _ _ _ _ Hx1 Hy1 On1) as (E1 & E2 & E3).
  destruct (on_curve_same_field _ _ _ _ Hx2 Hy2 On2) as (F1 & F2 & F3).
  apply ModularFieldInteger_eq_true in Ha. destruct Ha as [Hav Hap].
  apply ModularFieldInteger_eq_true in Hb. destruct Hb as [Hbv Hbp].
  destruct P as [cls cP aP bP], Q as [cls' cQ aQ bQ].
  cbn [coords pt_a pt_b pcls] in *. subst cP cQ.
  destruct x1 as [cx1 x1 p], y1 as [cy1 y1 py1], x2 as [cx2 x2 px2],
    y2 as [cy2 y2 py2], aP as [ca a pa], bP as [cb b pb],
    aQ as [ca' a' pa'], bQ as [cb' b' pb'].
  cbn [prime value fcls] in *.
  assert (px2 = p) by congruence.
  subst py1 pa pb py2 pa' pb' px2 a' b'.
  destruct Hx1 as (Hp & Ht & Rx1 & Hcx1). destruct Hy1 as (_ & _ & Ry1 & Hcy1).
  destruct Hx2 as (_ & _ & Rx2 & Hcx2). destruct Hy2 as (_ & _ & Ry2 & Hcy2).
  pose proof HaP as (_ & _ & _ & Hca). pose proof HbP as (_ & _ & _ & Hcb).
  pose proof HaQ as (_ & _ & _ & Hca').
  cbn [prime value fcls] in *.
  rewrite on_curve_eval in On1, On2 by assumption.
  injection On1 as On1. injection On2 as On2.
  apply (curve_check_iff p Hprime H3) in On1.
  apply (curve_check_iff p Hprime H3) in On2.
  unfold vertical. rewrite !ModularFieldInteger_eq_mk. cbn [value].
  destruct (Z.eq_dec x1 x2) as [Ex | Ex].
  - assert (Ex' : (x1 =? x2) = true) by (apply Z.eqb_eq; exact Ex).
    rewrite Ex'. cbn [andb].
    destruct (Z.eq_dec y1 y2) as [Ey | Ey].
    + assert (Ey' : (y1 =? y2) = true) by (apply Z.eqb_eq; exact Ey).
      rewrite Ey'. cbn [negb orb].
      destruct (Z.eq_dec y1 0) as [E0 | E0].
      * assert (E0' : (y1 =? 0) = true) by (apply Z.eqb_eq; exact E0).
        rewrite E0'.
        rewrite add_eval_vertical_tangent by assumption.
        eexists. split; [reflexivity | ].
        cbn [coords pcls pt_a pt_b].
        split; [ | reflexivity].
        split; [apply point_ok_infinity; assumption | auto].
      * assert (E0' : (y1 =? 0) = false) by (apply Z.eqb_neq; exact E0).
        rewrite E0'.
        rewrite add_eval_tangent by assumption.
        assert (Hy : 0 < y1 < p) by lia.
        pose proof (tangent_sum_on_curve p Hprime H3 x1 y1 a b On1 Hy) as Hc.
        pose proof (tangent_sum_formula p Hprime H3 x1 y1 a) as Hf.
        cbv zeta in Hf.
        destruct (tangent_sum p a x1 y1) as [x3 y3]. cbn [fst snd].
        injection Hf as Hx3 Hy3.
        apply (curve_check_iff p Hprime H3) in Hc.
        assert (Hon : is_on_elliptic_curve (mkFE cx1 x3 p) (mkFE cx1 y3 p)
                        (mkFE ca a p) (mkFE cb b p) = Ok true)
          by (rewrite on_curve_eval by assumption; rewrite Hc; reflexivity).
        cbn [EllipcCurvePoint_init]. rewrite Hon. cbn [bind].
        eexists. split; [reflexivity | ].
        cbn [coords pcls pt_a pt_b prime value].
        split.
        { split; [ | auto].
          apply point_ok_finite; try assumption.
          - rewrite Hx3. unfold sum_x. apply field_element_ok_mk; assumption.
          - rewrite Hy3. unfold sum_y. apply field_element_ok_mk; assumption. }
        repeat split; try reflexivity.
        -- rewrite <- Ex. exact Hx3.
        -- rewrite Hy3, Hx3. reflexivity.
    + assert (Ey' : (y1 =? y2) = false) by (apply Z.eqb_neq; exact Ey).
      rewrite Ey'. cbn [negb orb].
      rewrite add_eval_opposite by assumption.
      eexists. split; [reflexivity | ].
      cbn [coords pcls pt_a pt_b].
      split; [ | reflexivity].
      split; [apply point_ok_infinity; assumption | auto].
  - assert (Ex' : (x1 =? x2) = false) by (apply Z.eqb_neq; exact Ex).
    rewrite Ex'. cbn [andb].
    rewrite add_eval_chord by assumption.
    assert (Hd : ~ (p | x2 - x1)).
    { intros Hd. apply Ex. apply (divide_small_difference p); assumption. }
    pose proof (chord_sum_on_curve p Hprime H3 x1 y1 x2 y2 a b On1 On2 Hd)
      as Hc.
    pose proof (chord_sum_formula p Hprime H3 x1 y1 x2 y2) as Hf.
    cbv zeta in Hf.
    destruct (chord_sum p x1 y1 x2 y2) as [x3 y3]. cbn [fst snd].
    injection Hf as Hx3 Hy3.
    apply (curve_check_iff p Hprime H3) in Hc.
    assert (Hon : is_on_elliptic_curve (mkFE cy2 x3 p) (mkFE cy2 y3 p)
                    (mkFE ca a p) (mkFE cb b p) = Ok true)
      by (rewrite on_curve_eval by assumption; rewrite Hc; reflexivity).
    cbn [EllipcCurvePoint_init]. rewrite Hon. cbn [bind].
    eexists. split; [reflexivity | ].
    cbn [coords pcls pt_a pt_b prime value].
    split.
    { split; [ | auto].
      apply point_ok_finite; try assumption.
      - rewrite Hx3. unfold sum_x. apply field_element_ok_mk; assumption.
      - rewrite Hy3. unfold sum_y. apply field_element_ok_mk; assumption. }
    repeat split; try reflexivity.
    + exact Hx3.
    + rewrite Hy3, Hx3. reflexivity.
Qed.

Lemma point_ok_field (P : EllipcCurvePoint) (x y : ModularFieldInteger) :
  point_ok P -> coords P = Some (x, y) ->
  field_element_ok x /\ field_element_ok y
  /\ prime y = prime x /\ prime (pt_a P) = prime x /\ prime (pt_b P) = prime x.
Proof.
  intros HP Hc. pose proof (point_ok_on_curve P x y HP Hc) as Hon.
  destruct HP as (_ & _ & Hxy & _). destruct (Hxy x y Hc) as [Hx Hy].
  split; [exact Hx | split; [exact Hy | ]].
  exact (on_curve_same_field _ _ _ _ Hx Hy Hon).
Qed.

Lemma same_curve_sym (P Q : EllipcCurvePoint) :
  same_curve P Q -> same_curve Q P.
Proof.
  unfold same_curve, ModularFieldInteger_eq. intros [Ha Hb].
  rewrite (Z.eqb_sym (value (pt_a Q))), (Z.eqb_sym (prime (pt_a Q))).
  rewrite (Z.eqb_sym (value (pt_b Q))), (Z.eqb_sym (prime (pt_b Q))).
  auto.
Qed.

(** [__add__] on any two point objects of one curve. *)
Lemma add_closed (P Q : EllipcCurvePoint) :
  point_ok P -> point_ok Q -> same_curve P Q ->
  Z.prime (prime (pt_a P)) -> 3 < prime (pt_a P) ->
  exists R,
    EllipcCurvePoint_add P Q = Ok (Some R)
    /\ match coords P, coords Q with
       | None, _ => R = Q
       | Some _, None => R = P
       | Some _, Some _ => on_curve_of P R
       end.
Proof.
  intros HP HQ Hs Hprime H3.
  destruct (coords P) as [[x1 y1] | ] eqn:HcP.
  - destruct (coords Q) as [[x2 y2] | ] eqn:HcQ.
    + destruct (point_ok_field P x1 y1 HP HcP) as (_ & _ & _ & E & _).
      rewrite E in Hprime, H3.
      destruct (add_finite_spec P Q x1 y1 x2 y2 HP HQ Hs HcP HcQ Hprime H3)
        as (R & Hadd & HR & _).
      exists R. auto.
    + exists P. unfold EllipcCurvePoint_add. destruct Hs as [Ha Hb].
      rewrite Ha, Hb, HcP, HcQ. auto.
  - exists Q. unfold EllipcCurvePoint_add. destruct Hs as [Ha Hb].
    rewrite Ha, Hb, HcP. auto.
Qed.

(** X11.  On two point objects of one curve over a prime field with
    [p > 3], [+] raises nothing and never falls off the end of its body: it
    returns a point object of that curve.  The point at infinity is neutral
    on both sides: the other operand itself is returned. *)
Theorem add_returns_point (P Q : EllipcCurvePoint) :
  point_ok P -> point_ok Q -> same_curve P Q ->
  Z.prime (prime (pt_a P)) -> 3 < prime (pt_a P) ->
  exists R,
    EllipcCurvePoint_add P Q = Ok (Some R)
    /\ point_ok R /\ same_curve P R
    /\ (coords P = None -> R = Q)
    /\ (coords Q = None -> coords P <> None -> R = P).
Proof.
  intros HP HQ Hs Hprime H3.
  destruct (add_closed P Q HP HQ Hs Hprime H3) as (R & Hadd & HR).
  exists R. split; [exact Hadd | ].
  destruct (coords P) as [[x1 y1] | ].
  - destruct (coords Q) as [[x2 y2] | ].
    + destruct HR as (Hok & _ & Ea & Eb).
      split; [exact Hok | split].
      * unfold same_curve. rewrite Ea, Eb, !ModularFieldInteger_eq_refl. auto.
      * split; [intros [=] | intros [=]].
    + subst R. split; [exact HP | split].
      * unfold same_curve. rewrite !ModularFieldInteger_eq_refl. auto.
      * split; [intros [=] | reflexivity].
  - subst R. split; [exact HQ | split; [exact Hs | ]].
    split; [reflexivity | intros _ H; contradiction].
Qed.


Lemma vertical_sym (x1 y1 x2 y2 : ModularFieldInteger) :
  vertical x1 y1 x2 y2 = vertical x2 y2 x1 y1.
Proof.
  unfold vertical, ModularFieldInteger_eq.
  rewrite (Z.eqb_sym (value x2)), (Z.eqb_sym (prime x2)).
  rewrite (Z.eqb_sym (value y2)), (Z.eqb_sym (prime y2)).
  destruct ((value x1 =? value x2) && (prime x1 =? prime x2)); [ | reflexivity].
  cbn [andb].
  destruct (value y1 =? value y2) eqn:Ev; [ | reflexivity].
  apply Z.eqb_eq in Ev. rewrite Ev. reflexivity.
Qed.

Lemma odd_prime_minus_2 (p : Z) : Z.prime p -> 3 < p -> Z.Odd (p - 2).
Proof.
  intros Hprime H3.
  destruct (Z.Even_or_Odd (p - 2)) as [[k Hk] | H]; [ | exact H].
  exfalso.
  assert (Hd : (2 | p)) by (exists (k + 1); lia).
  apply (Z.divide_prime_r 2 p Hprime) in Hd. lia.
Qed.

Lemma chord_slope_sym (p x1 y1 x2 y2 : Z) :
  Z.prime p -> 3 < p ->
  chord_slope p x1 y1 x2 y2 = chord_slope p x2 y2 x1 y1.
Proof.
  intros Hprime H3. unfold chord_slope.
  replace (x1 - x2) with (- (x2 - x1)) by ring.
  rewrite Z.pow_opp_odd by (apply odd_prime_minus_2; assumption).
  apply (f_equal (fun u => u mod p)). ring.
Qed.

(** The chord through two points has the same third point whichever end
    the formulas start from. *)
Lemma chord_sum_y_sym (p x1 y1 x2 y2 x3 : Z) :
  Z.prime p -> 0 <= x1 < p -> 0 <= x2 < p -> x1 <> x2 ->
  sum_y p (chord_slope p x1 y1 x2 y2) x1 y1 x3
  = sum_y p (chord_slope p x1 y1 x2 y2) x2 y2 x3.
Proof.
  intros Hprime R1 R2 Hne.
  pose proof (Z.prime_ge_2 p Hprime) as Hp.
  assert (Hd : ~ (p | x2 - x1)).
  { intros Hd. apply Hne. apply (divide_small_difference p); assumption. }
  pose proof (fermat_inverse_prime p (x2 - x1) Hprime Hd) as Hi.
  rewrite pow_mod_spec, Z.mod_pow_l in Hi by lia.
  apply cong_divide in Hi. rewrite Zmult_mod_idemp_r in Hi.
  apply cong_divide in Hi.
  unfold sum_y, chord_slope.
  set (i := (x2 - x1) ^ (p - 2)) in *.
  cong_strip. apply cong_divide.
  match goal with
  | |- (p | ?t) =>
      replace t with (((x2 - x1) * i - 1) * (- (y2 - y1))) by ring
  end.
  apply Z.divide_mul_l. exact Hi.
Qed.

(** X12.  Addition is commutative up to [==]: on two point objects of one
    curve over a prime field with [p > 3], [P + Q] and [Q + P] both return,
    and the two results compare equal. *)
Theorem add_commutes (P Q : EllipcCurvePoint) :
  point_ok P -> point_ok Q -> same_curve P Q ->
  Z.prime (prime (pt_a P)) -> 3 < prime (pt_a P) ->
  exists R R',
    EllipcCurvePoint_add P Q = Ok (Some R)
    /\ EllipcCurvePoint_add Q P = Ok (Some R')
    /\ EllipcCurvePoint_eq R R' = true.
Proof.
  intros HP HQ Hs Hprime H3.
  pose proof (same_curve_sym P Q Hs) as Hs'.
  pose proof Hs as [Ha Hb].
  pose proof (ModularFieldInteger_eq_true _ _ Ha) as [Hav Hap].
  assert (Hprime' : Z.prime (prime (pt_a Q))) by (rewrite <- Hap; exact Hprime).
  assert (H3' : 3 < prime (pt_a Q)) by (rewrite <- Hap; exact H3).
  assert (Heq_inf : forall X Y : EllipcCurvePoint,
             coords X = None -> coords Y = None -> same_curve X Y ->
             EllipcCurvePoint_eq X Y = true).
  { intros X Y HX HY [HaXY HbXY]. unfold EllipcCurvePoint_eq, pt_x, pt_y.
    rewrite HX, HY, HaXY, HbXY. reflexivity. }
  assert (Heq_refl : forall X : EllipcCurvePoint,
             EllipcCurvePoint_eq X X = true).
  { intros X. unfold EllipcCurvePoint_eq, pt_x, pt_y.
    rewrite !ModularFieldInteger_eq_refl.
    destruct (coords X) as [[u v] | ]; cbn [option_map fst snd coord_eq];
      rewrite ?ModularFieldInteger_eq_refl; reflexivity. }
  destruct (coords P) as [[x1 y1] | ] eqn:HcP;
    destruct (coords Q) as [[x2 y2] | ] eqn:HcQ.
  - (* two finite points *)
    destruct (point_ok_field P x1 y1 HP HcP) as (Hx1 & Hy1 & Ey1 & EaP & _).
    destruct (point_ok_field Q x2 y2 HQ HcQ) as (Hx2 & Hy2 & Ey2 & EaQ & _).
    assert (Ep : prime x2 = prime x1) by congruence.
    rewrite EaP in Hprime, H3. rewrite EaQ in Hprime', H3'.
    destruct (add_finite_spec P Q x1 y1 x2 y2 HP HQ Hs HcP HcQ Hprime H3)
      as (R & Hadd & (_ & _ & EaR & EbR) & HR).
    destruct (add_finite_spec Q P x2 y2 x1 y1 HQ HP Hs' HcQ HcP Hprime' H3')
      as (R' & Hadd' & (_ & _ & EaR' & EbR') & HR').
    exists R, R'. split; [exact Hadd | split; [exact Hadd' | ]].
    assert (HsR : same_curve R R')
      by (unfold same_curve; rewrite EaR, EbR, EaR', EbR'; exact Hs).
    rewrite (vertical_sym x2 y2 x1 y1) in HR'.
    destruct (coords R) as [[x3 y3] | ] eqn:HcR;
      destruct (coords R') as [[x3' y3'] | ] eqn:HcR'.
    + destruct HR as (Hv & Px3 & Py3 & Hx3 & Hy3).
      destruct HR' as (_ & Px3' & Py3' & Hx3' & Hy3').
      cbv zeta in Hx3, Hy3, Hx3', Hy3'.
      destruct HsR as [HaR HbR].
      unfold EllipcCurvePoint_eq, pt_x, pt_y.
      rewrite HcR, HcR', HaR, HbR. cbn [option_map fst snd coord_eq].
      rewrite !andb_true_r.
      assert (Hvals : value x3 = value x3' /\ value y3 = value y3').
      { rewrite Hy3, Hy3', Hx3, Hx3'. clear Hx3 Hy3 Hx3' Hy3'.
        destruct Hx1 as (_ & _ & R1 & _). destruct Hx2 as (_ & _ & R2 & _).
        rewrite Ep in *. clear Px3 Py3 Px3' Py3'.
        unfold vertical in Hv.
        assert (Esym : ModularFieldInteger_eq x2 x1
                       = ModularFieldInteger_eq x1 x2).
        { unfold ModularFieldInteger_eq.
          rewrite (Z.eqb_sym (value x2)), (Z.eqb_sym (prime x2)).
          reflexivity. }
        rewrite Esym.
        destruct (ModularFieldInteger_eq x1 x2) eqn:Ex.
        - cbn [andb] in Hv. apply orb_false_iff in Hv. destruct Hv as [Hv _].
          apply negb_false_iff in Hv.
          apply ModularFieldInteger_eq_true in Ex. destruct Ex as [Ex _].
          apply ModularFieldInteger_eq_true in Hv. destruct Hv as [Ey _].
          rewrite <- Ex, <- Ey, <- Hav. auto.
        - assert (Hne : value x1 <> value x2).
          { intros E. unfold ModularFieldInteger_eq in Ex.
            rewrite E, Ep, !Z.eqb_refl in Ex. discriminate Ex. }
          rewrite (chord_slope_sym (prime x1) (value x2) (value y2)
                     (value x1) (value y1)) by assumption.
          set (s := chord_slope (prime x1) (value x1) (value y1)
                      (value x2) (value y2)).
          assert (Ex3 : sum_x (prime x1) s (value x1) (value x2)
                        = sum_x (prime x1) s (value x2) (value x1)).
          { unfold sum_x. apply (f_equal (fun u => u mod prime x1)). ring. }
          split; [exact Ex3 | ].
          rewrite <- Ex3. subst s.
          apply chord_sum_y_sym; assumption. }
      destruct Hvals as [Evx Evy].
      unfold ModularFieldInteger_eq.
      rewrite Evx, Evy, Px3, Py3, Px3', Py3', Ep, !Z.eqb_refl. reflexivity.
    + destruct HR as (Hv & _). rewrite Hv in HR'. discriminate HR'.
    + destruct HR' as (Hv & _). rewrite Hv in HR. discriminate HR.
    + apply Heq_inf; [exact HcR | exact HcR' | exact HsR].
  - (* Q at infinity *)
    destruct (add_closed P Q HP HQ Hs Hprime H3) as (R & Hadd & HR).
    destruct (add_closed Q P HQ HP Hs' Hprime' H3') as (R' & Hadd' & HR').
    rewrite HcP, HcQ in HR. rewrite HcQ in HR'. subst R R'.
    exists P, P. auto.
  - (* P at infinity *)
    destruct (add_closed P Q HP HQ Hs Hprime H3) as (R & Hadd & HR).
    destruct (add_closed Q P HQ HP Hs' Hprime' H3') as (R' & Hadd' & HR').
    rewrite HcP in HR. rewrite HcQ, HcP in HR'. subst R R'.
    exists Q, Q. auto.
  - destruct (add_closed P Q HP HQ Hs Hprime H3) as (R & Hadd & HR).
    destruct (add_closed Q P HQ HP Hs' Hprime' H3') as (R' & Hadd' & HR').
    rewrite HcP in HR. rewrite HcQ in HR'. subst R R'.
    exists Q, P. split; [exact Hadd | split; [exact Hadd' | ]].
    apply Heq_inf; assumption.
Qed.


(** ** Scalar multiplication on any curve *)

Lemma on_curve_of_add (S X Y : EllipcCurvePoint) :
  Z.prime (prime (pt_a S)) -> 3 < prime (pt_a S) ->
  on_curve_of S X -> on_curve_of S Y ->
  exists R, py_add (Some X) (Some Y) = Ok (Some R) /\ on_curve_of S R.
Proof.
  intros Hprime H3 HX HY.
  pose proof HX as (HokX & HcX & HaX & HbX).
  pose proof HY as (HokY & HcY & HaY & HbY).
  assert (Hs : same_curve X Y).
  { unfold same_curve. rewrite HaX, HbX, HaY, HbY.
    rewrite !ModularFieldInteger_eq_refl. auto. }
  rewrite <- HaX in Hprime, H3.
  destruct (add_closed X Y HokX HokY Hs Hprime H3) as (R & Hadd & HR).
  exists R. split; [exact Hadd | ].
  destruct (coords X) as [[x1 y1] | ].
  - destruct (coords Y) as [[x2 y2] | ].
    + destruct HR as (Hok & Hc & Ha & Hb).
      unfold on_curve_of. rewrite Hc, Ha, Hb. auto.
    + subst R. exact HX.
  - subst R. exact HY.
Qed.

Lemma on_curve_of_infinity (S : EllipcCurvePoint) :
  point_ok S ->
  Point_new (pcls S) None None (pt_a S) (pt_b S)
  = Ok (mkPoint (pcls S) None (pt_a S) (pt_b S))
  /\ on_curve_of S (mkPoint (pcls S) None (pt_a S) (pt_b S)).
Proof.
  intros HS. pose proof (point_ok_class S HS) as Hcls.
  pose proof HS as (Ha & Hb & _).
  split.
  - rewrite Point_new_init by exact Hcls. reflexivity.
  - unfold on_curve_of. cbn [pcls pt_a pt_b].
    split; [apply point_ok_infinity; assumption | auto].
Qed.

Lemma on_curve_of_self (S : EllipcCurvePoint) : point_ok S -> on_curve_of S S.
Proof. intros HS. unfold on_curve_of. auto. Qed.

Section Multiples.

Variable base : EllipcCurvePoint.
Hypothesis Hprime : Z.prime (prime (pt_a base)).
Hypothesis H3 : 3 < prime (pt_a base).

(** The loop keeps both of its points on the curve, and ends once the
    coefficient has been shifted down to 0. *)
Lemma rmul_loop_closed (fuel : nat) :
  forall (coef : Z) (current acc : EllipcCurvePoint),
    0 <= coef < 2 ^ Z.of_nat fuel ->
    on_curve_of base current -> on_curve_of base acc ->
    exists R, rmul_loop fuel coef (Some current) (Some acc) = Ok (Some R)
              /\ on_curve_of base R.
Proof.
  induction fuel as [ | fuel IH]; intros coef current acc Hc Hcur Hacc.
  - change (2 ^ Z.of_nat 0) with 1 in Hc. assert (coef = 0) as -> by lia.
    exists acc. split; [reflexivity | exact Hacc].
  - cbn [rmul_loop]. destruct (coef =? 0) eqn:E0.
    + exists acc. split; [reflexivity | exact Hacc].
    + destruct (on_curve_of_add base current current Hprime H3 Hcur Hcur)
        as (current' & Hdbl & Hcur').
      assert (Hstep : exists acc',
                 (if Z.land coef 1 =? 0 then Ok (Some acc)
                  else py_add (Some acc) (Some current)) = Ok (Some acc')
                 /\ on_curve_of base acc').
      { destruct (Z.land coef 1 =? 0).
        - exists acc. split; [reflexivity | exact Hacc].
        - exact (on_curve_of_add base acc current Hprime H3 Hacc Hcur). }
      destruct Hstep as (acc' & Hstep & Hacc').
      rewrite Hstep, Hdbl. cbn [bind].
      apply IH; [ | exact Hcur' | exact Hacc'].
      rewrite Z.shiftr_div_pow2 by lia. change (2 ^ 1) with 2.
      rewrite Nat2Z.inj_succ, Z.pow_succ_r in Hc by lia.
      split.
      * apply Z.div_pos; lia.
      * apply Z.div_lt_upper_bound; lia.
Qed.

(** On a negative coefficient the loop never reaches 0: the shift keeps the
    sign, and no addition on the way raises. *)
Lemma rmul_loop_negative (fuel : nat) :
  forall (coef : Z) (current acc : EllipcCurvePoint),
    coef < 0 ->
    on_curve_of base current -> on_curve_of base acc ->
    rmul_loop fuel coef (Some current) (Some acc) = OutOfFuel.
Proof.
  induction fuel as [ | fuel IH]; intros coef current acc Hc Hcur Hacc.
  - cbn [rmul_loop]. destruct (coef =? 0) eqn:E0; [ | reflexivity].
    apply Z.eqb_eq in E0. lia.
  - cbn [rmul_loop]. destruct (coef =? 0) eqn:E0.
    { apply Z.eqb_eq in E0. lia. }
    destruct (on_curve_of_add base current current Hprime H3 Hcur Hcur)
      as (current' & Hdbl & Hcur').
    assert (Hstep : exists acc',
               (if Z.land coef 1 =? 0 then Ok (Some acc)
                else py_add (Some acc) (Some current)) = Ok (Some acc')
               /\ on_curve_of base acc').
    { destruct (Z.land coef 1 =? 0).
      - exists acc. split; [reflexivity | exact Hacc].
      - exact (on_curve_of_add base acc current Hprime H3 Hacc Hcur). }
    destruct Hstep as (acc' & Hstep & Hacc').
    rewrite Hstep, Hdbl. cbn [bind].
    apply IH; [ | exact Hcur' | exact Hacc'].
    apply Z.shiftr_neg. exact Hc.
Qed.

End Multiples.

(** X13.  Over a prime field with [p > 3], multiplying a point object by a
    coefficient [k >= 0] returns a point object of the same class and curve,
    after at most as many rounds of the loop as [k] has bits: no addition
    on the way raises or returns [None]. *)
Theorem rmul_returns_point (fuel : nat) (k : Z) (P : EllipcCurvePoint) :
  point_ok P -> Z.prime (prime (pt_a P)) -> 3 < prime (pt_a P) ->
  0 <= k < 2 ^ Z.of_nat fuel ->
  exists R,
    EllipcCurvePoint_rmul fuel k P = Ok (Some R)
    /\ point_ok R /\ pcls R = pcls P /\ pt_a R = pt_a P /\ pt_b R = pt_b P.
Proof.
  intros HP Hprime H3 Hk. unfold EllipcCurvePoint_rmul.
  destruct (on_curve_of_infinity P HP) as [Hnew Hinf].
  rewrite Hnew. cbn [bind].
  exact (rmul_loop_closed P Hprime H3 fuel k P _ Hk
           (on_curve_of_self P HP) Hinf).
Qed.

(** X14.  [EllipcCurvePoint.__rmul__] does not return on a negative
    coefficient: [coef >>= 1] keeps it negative, so the loop condition
    never fails, and over a prime field with [p > 3] no addition on the way
    raises.  However many rounds the loop is given, it has not finished. *)
Theorem rmul_negative_never_returns (fuel : nat) (k : Z)
  (P : EllipcCurvePoint) :
  point_ok P -> Z.prime (prime (pt_a P)) -> 3 < prime (pt_a P) ->
  k < 0 ->
  EllipcCurvePoint_rmul fuel k P = OutOfFuel.
Proof.
  intros HP Hprime H3 Hk. unfold EllipcCurvePoint_rmul.
  destruct (on_curve_of_infinity P HP) as [Hnew Hinf].
  rewrite Hnew. cbn [bind].
  exact (rmul_loop_negative P Hprime H3 fuel k P _ Hk
           (on_curve_of_self P HP) Hinf).
Qed.


(** ** Verification and signing *)

Lemma mul_mod_add_multiple (a i b n : Z) :
  n <> 0 -> ((a + i * n) * b) mod n = (a * b) mod n.
Proof.
  intros Hn. replace ((a + i * n) * b) with (a * b + i * b * n) by ring.
  apply Z.mod_add. exact Hn.
Qed.

Lemma py_pow3_add_multiple (base j e m : Z) :
  m <> 0 -> 0 <= e -> py_pow3 (base + j * m) e m = py_pow3 base e m.
Proof.
  intros Hm He. rewrite !py_pow3_nonneg by assumption. apply f_equal.
  rewrite !pow_mod_spec by exact He.
  rewrite <- (Z.mod_pow_l (base + j * m)), Z.mod_add by exact Hm.
  apply Z.mod_pow_l.
Qed.

Lemma bind_Ok {T U : Type} (v : T) (f : T -> result U) : bind (Ok v) f = f v.
Proof. reflexivity. Qed.

(** X15.  [verify] uses the message hash [z] and the [s] of the signature
    modulo the group order only: adding multiples of [n] to either changes
    nothing, so [(r, s)] and [(r, s + n)] are accepted or rejected
    together.  Neither [r] nor [s] is checked to lie in [[1, n - 1]]. *)
Theorem verify_mod_order (fuel : nat) (self : EllipcCurvePoint)
  (z r s i j : Z) :
  S256Point_verify fuel self (z + i * G_ORDER) (mkSignature r (s + j * G_ORDER))
  = S256Point_verify fuel self z (mkSignature r s).
Proof.
  unfold S256Point_verify.
  change (sig_s (mkSignature r (s + j * G_ORDER))) with (s + j * G_ORDER).
  change (sig_s (mkSignature r s)) with s.
  change (sig_r (mkSignature r (s + j * G_ORDER))) with r.
  change (sig_r (mkSignature r s)) with r.
  rewrite py_pow3_add_multiple
    by (first [discriminate | vm_compute; discriminate]).
  destruct (py_pow3 s (G_ORDER - 2) G_ORDER) as [s_inv | e | ];
    [ | reflexivity | reflexivity].
  rewrite !bind_Ok.
  rewrite !py_mod_nonzero by discriminate.
  rewrite mul_mod_add_multiple by discriminate. reflexivity.
Qed.

(** X16.  [verify] comes back on every input, with a boolean or an
    exception: both scalars are reduced modulo the group order before they
    are multiplied, so each multiplication runs its loop at most 256 times,
    whatever the class of the point. *)
Theorem verify_returns (fuel : nat) (self : EllipcCurvePoint) (z : Z)
  (sig : Signature) :
  (256 <= fuel)%nat -> halts (S256Point_verify fuel self z sig).
Proof.
  intros Hf. unfold S256Point_verify.
  apply halts_bind; [auto with halts | ]. intros s_inv.
  rewrite !py_mod_nonzero by discriminate. cbn [bind].
  apply halts_bind.
  { unfold Point_rmul. cbn [pcls G]. apply halts_S256Point_rmul. exact Hf. }
  intros uG. apply halts_bind.
  { unfold Point_rmul. destruct (pcls self).
    - unfold EllipcCurvePoint_rmul.
      apply halts_bind; [auto with halts | ]. intros acc.
      apply halts_rmul_loop.
      assert (Hv : 0 <= (sig_r sig * s_inv) mod G_ORDER < G_ORDER)
        by (apply Z.mod_pos_bound; reflexivity).
      assert (Hp : 2 ^ 256 <= 2 ^ Z.of_nat fuel)
        by (apply Z.pow_le_mono_r; lia).
      assert (Hg : G_ORDER < 2 ^ 256) by reflexivity.
      lia.
    - apply halts_S256Point_rmul. exact Hf. }
  intros vP. apply halts_bind; [auto with halts | ]. intros total.
  apply halts_bind; [ | intros tx; auto with halts].
  unfold x_value. destruct total as [T | ]; [ | auto with halts].
  destruct (coords T) as [[xv yv] | ]; auto with halts.
Qed.

Lemma deterministic_k_loop_range (fuel : nat) :
  forall (k v : list byte) (candidate : Z),
    deterministic_k_loop fuel k v = Ok candidate -> 1 <= candidate < G_ORDER.
Proof.
  induction fuel as [ | fuel IH]; intros k v candidate H.
  - discriminate H.
  - cbn [deterministic_k_loop] in H. cbv zeta in H.
    destruct ((1 <=? from_bytes (hmac_sha256 k v))
              && (from_bytes (hmac_sha256 k v) <? G_ORDER)) eqn:E.
    + apply andb_true_iff in E. destruct E as [E1 E2].
      apply Z.leb_le in E1. apply Z.ltb_lt in E2.
      assert (Hc : candidate = from_bytes (hmac_sha256 k v)).
      { apply (f_equal (fun m => match m with Ok c => c | _ => 0 end)) in H.
        symmetry. exact H. }
      rewrite Hc. auto.
    + exact (IH _ _ _ H).
Qed.

(** X17.  A nonce [deterministic_k] returns lies in [[1, n - 1]], whatever
    the HMAC function gives.  It is returned only for a secret in
    [[0, 2^256)] and a hash in [[0, 2^256 + n)]: the hash is reduced by one
    subtraction of [n], and a value that still does not fit in 32 bytes
    raises [OverflowError]. *)
Theorem deterministic_k_range (fuel : nat) (self : PrivateKey) (z k : Z) :
  PrivateKey_deterministic_k fuel self z = Ok k ->
  1 <= k < G_ORDER
  /\ 0 <= secret self < 2 ^ 256
  /\ 0 <= z < 2 ^ 256 + G_ORDER.
Proof.
  unfold PrivateKey_deterministic_k. cbv zeta.
  set (z' := if z >? G_ORDER then z - G_ORDER else z).
  intros H.
  assert (Hz : 0 <= z' < 2 ^ 256).
  { destruct (Z.lt_ge_cases z' 0) as [Hneg | Hpos];
      [rewrite to_bytes_out_of_range in H by (left; exact Hneg);
       discriminate H | ].
    destruct (Z.lt_ge_cases z' (2 ^ 256)) as [Hlt | Hge]; [auto | ].
    rewrite to_bytes_out_of_range in H by (right; exact Hge).
    discriminate H. }
  rewrite (to_bytes_in_range z') in H by exact Hz. cbn [bind] in H.
  assert (Hs : 0 <= secret self < 2 ^ 256).
  { destruct (Z.lt_ge_cases (secret self) 0) as [Hneg | Hpos];
      [rewrite to_bytes_out_of_range in H by (left; exact Hneg);
       discriminate H | ].
    destruct (Z.lt_ge_cases (secret self) (2 ^ 256)) as [Hlt | Hge];
      [auto | ].
    rewrite to_bytes_out_of_range in H by (right; exact Hge).
    discriminate H. }
  rewrite (to_bytes_in_range (secret self)) in H by exact Hs.
  cbn [bind] in H.
  split; [exact (deterministic_k_loop_range _ _ _ _ H) | ].
  split; [exact Hs | ].
  assert (Hn : 0 < G_ORDER) by reflexivity.
  subst z'. destruct (z >? G_ORDER) eqn:E.
  - apply Z.gtb_lt in E. lia.
  - rewrite Z.gtb_ltb in E. apply Z.ltb_ge in E.
    assert (Hg : G_ORDER < 2 ^ 256) by reflexivity. lia.
Qed.

(** The body of [sign] with the secret 1 and the nonce 1. *)
Lemma sign_with_nonce_one (z : Z) :
  is_prime EC_PRIME = true ->
  sign_with_nonce 1 (mkPrivateKey 1 (Some G)) z 1
  = Ok (mkSignature G_X
          (if (z + G_X) mod G_ORDER >? 2 ^ 255
           then G_ORDER - (z + G_X) mod G_ORDER
           else (z + G_X) mod G_ORDER)).
Proof.
  intros Ht. unfold sign_with_nonce. rewrite one_times_G by exact Ht.
  cbn [bind].
  change (x_value (Some G)) with (@Ok Z (G_X mod EC_PRIME)). cbn [bind secret].
  rewrite py_pow3_nonneg by (first [discriminate | vm_compute; discriminate]).
  cbn [bind].
  replace (pow_mod 1 (G_ORDER - 2) G_ORDER) with 1 by (vm_compute; reflexivity).
  rewrite py_mod_nonzero by discriminate. cbn [bind].
  rewrite G_ORDER_half_value.
  replace (G_X mod EC_PRIME) with G_X by (vm_compute; reflexivity).
  rewrite !Z.mul_1_r. reflexivity.
Qed.

End Crypto.

(** * The theorems at concrete inputs *)

Lemma fermat_test_EC_PRIME : fermat_test EC_PRIME = true.
Proof. vm_compute. reflexivity. Defined.

Lemma prime_5 : Z.prime 5.
Proof.
  split; [reflexivity | ].
  intros n Hn Hd. apply Z.mod_divide in Hd; [ | lia].
  assert (Hcases : n = 2 \/ n = 3 \/ n = 4) by lia.
  destruct Hcases as [-> | [-> | ->]]; discriminate Hd.
Defined.

Lemma field_element_ok_small (v p : Z) :
  1 < p -> fermat_test p = true -> 0 <= v < p ->
  field_element_ok fermat_test (mkFE ModularFieldIntegerC v p).
Proof.
  intros Hp Ht Hv. unfold field_element_ok. cbn [prime value fcls].
  split; [exact Hp | split; [exact Ht | split; [exact Hv | ]]].
  intros H. discriminate H.
Defined.

(** Signature(r = 2^255, s = 1): [r] takes the sign-padding byte, [s] loses
    31 leading zero bytes. *)
Lemma der_round_trip_witness :
  exists signature_bin,
    Signature_der (mkSignature (2 ^ 255) 1) = Ok signature_bin
    /\ Signature_parse signature_bin = Ok (mkSignature (2 ^ 255) 1).
Proof. apply der_round_trip; split; (reflexivity || discriminate). Defined.

(** Signature(0, 1). *)
Lemma der_precondition_witness :
  Signature_der (mkSignature 0 1) = Raise IndexError.
Proof.
  destruct (der_precondition (mkSignature 0 1)) as (_ & H & _).
  apply H. reflexivity.
Defined.

(** The value -3 in the field of 7 elements. *)
Lemma field_value_invariant_witness :
  exists e, FE_new fermat_test ModularFieldIntegerC (-3) 7 = Ok e
            /\ value e = 4.
Proof.
  destruct (field_value_invariant fermat_test) as (H & _).
  destruct (H ModularFieldIntegerC (-3) 7) as (e & He & Hv & _).
  - reflexivity.
  - reflexivity.
  - intros Hc. discriminate Hc.
  - exists e. split; [exact He | rewrite Hv; reflexivity].
Defined.

(** 3 ** 6 in the field of 7 elements. *)
Lemma pow_reduces_exponent_witness :
  ModularFieldInteger_pow fermat_test (mkFE ModularFieldIntegerC 3 7) 6
  = Ok (mkFE ModularFieldIntegerC 1 7).
Proof.
  apply (pow_reduces_exponent fermat_test (mkFE ModularFieldIntegerC 3 7)).
  - apply field_element_ok_small; [reflexivity | reflexivity | lia].
  - discriminate.
Defined.

(** verify(z = 0, Signature(1, 0)) against the generator. *)
Lemma verify_zero_s_raises_witness :
  S256Point_verify fermat_test 0 G 0 (mkSignature 1 0) = Raise AttributeError.
Proof.
  apply (verify_zero_s_raises fermat_test 0 G 0 1). repeat split.
Defined.

Lemma sign_keeps_s_above_half_order_witness :
  sign_with_nonce fermat_test 1 (mkPrivateKey 1 (Some G)) (2 ^ 255 - G_X) 1
  = Ok (mkSignature G_X (2 ^ 255)).
Proof.
  apply (sign_keeps_s_above_half_order fermat_test fermat_test_EC_PRIME).
Defined.

Lemma point_ok_curve5 (x y : Z) :
  0 <= x < 5 -> 0 <= y < 5 ->
  Point_new fermat_test EllipcCurvePointC (Some (F5 x)) (Some (F5 y))
    (F5 1) (F5 1) = Ok (curve5 x y) ->
  point_ok fermat_test (curve5 x y).
Proof.
  intros Hx Hy Hnew. unfold point_ok, curve5.
  cbn [pt_a pt_b pt_x pt_y coords pcls option_map fst snd].
  split; [ | split; [ | split]].
  - apply field_element_ok_small; [reflexivity | reflexivity | lia].
  - apply field_element_ok_small; [reflexivity | reflexivity | lia].
  - intros x' y' [= <- <-].
    split; apply field_element_ok_small;
      solve [reflexivity | assumption].
  - exact Hnew.
Defined.

(** (0, 1) + (2, 1) = (3, 4) on that curve. *)
Lemma add_infinity_iff_vertical_witness :
  exists R,
    EllipcCurvePoint_add fermat_test (curve5 0 1) (curve5 2 1) = Ok (Some R)
    /\ point_ok fermat_test R
    /\ match coords R with
       | None => False
       | Some (x3, y3) => value x3 = 3 /\ value y3 = 4
       end.
Proof.
  destruct (add_infinity_iff_vertical fermat_test (curve5 0 1) (curve5 2 1)
              (F5 0) (F5 1) (F5 2) (F5 1))
    as (R & Hadd & Hok & _ & _ & _ & Hcoords).
  - apply point_ok_curve5; [lia | lia | reflexivity].
  - apply point_ok_curve5; [lia | lia | reflexivity].
  - split; reflexivity.
  - reflexivity.
  - reflexivity.
  - exact prime_5.
  - reflexivity.
  - exists R. split; [exact Hadd | split; [exact Hok | ]].
    destruct (coords R) as [[x3 y3] | ].
    + destruct Hcoords as (_ & _ & _ & Hx & Hy). cbv zeta in Hx, Hy.
      rewrite Hy, Hx. split; reflexivity.
    + discriminate Hcoords.
Defined.

(** ** Field arithmetic in the field of 5 elements *)

Lemma F5_ok (v : Z) : 0 <= v < 5 -> field_element_ok fermat_test (F5 v).
Proof.
  intros Hv. apply field_element_ok_small; [reflexivity | reflexivity | exact Hv].
Defined.

(** (3 + 4) - 4 = 3. *)
Lemma add_sub_cancel_witness :
  exists s, ModularFieldInteger_add fermat_test (F5 3) (F5 4) = Ok s
            /\ ModularFieldInteger_sub fermat_test s (F5 4) = Ok (F5 3).
Proof.
  destruct (add_sub_cancel fermat_test (F5 3) (F5 4)) as [H _].
  - apply F5_ok. lia.
  - apply F5_ok. lia.
  - reflexivity.
  - exact H.
Defined.

(** (3 / 4) * 4 = 3. *)
Lemma div_mul_cancel_witness :
  exists q, ModularFieldInteger_truediv fermat_test (F5 3) (F5 4) = Ok q
            /\ ModularFieldInteger_mul fermat_test q (F5 4) = Ok (F5 3).
Proof.
  destruct (div_mul_cancel fermat_test (F5 3) (F5 4)) as [H _].
  - apply F5_ok. lia.
  - apply F5_ok. lia.
  - reflexivity.
  - exact prime_5.
  - discriminate.
  - exact H.
Defined.

(** 3 / 0 = 0. *)
Lemma div_by_zero_returns_witness :
  ModularFieldInteger_truediv fermat_test (F5 3) (F5 0) = Ok (F5 0).
Proof.
  apply (div_by_zero_returns fermat_test (F5 3) (F5 0)).
  - apply F5_ok. lia.
  - reflexivity.
  - reflexivity.
Defined.

(** 2 ** -1 = 3, and 2 * 3 = 1. *)
Lemma pow_minus_one_inverts_witness :
  exists i, ModularFieldInteger_pow fermat_test (F5 2) (-1) = Ok i
            /\ ModularFieldInteger_mul fermat_test (F5 2) i = Ok (F5 1).
Proof.
  destruct (pow_minus_one_inverts fermat_test (F5 2)) as (i & Hp & Hm & _).
  - apply F5_ok. lia.
  - exact prime_5.
  - discriminate.
  - exists i. split; [exact Hp | exact Hm].
Defined.

(** 0 ** 4 = 1. *)
Lemma pow_multiple_of_prime_minus_1_witness :
  ModularFieldInteger_pow fermat_test (F5 0) 4 = Ok (F5 1).
Proof.
  apply (pow_multiple_of_prime_minus_1 fermat_test (F5 0) 1).
  apply F5_ok. lia.
Defined.

(** 2 * (3 + 4) = 2 * 3 + 2 * 4. *)
Lemma field_ring_laws_witness :
  (t <- ModularFieldInteger_add fermat_test (F5 3) (F5 4) ;;
   ModularFieldInteger_mul fermat_test (F5 2) t)
  = (u <- ModularFieldInteger_mul fermat_test (F5 2) (F5 3) ;;
     v <- ModularFieldInteger_mul fermat_test (F5 2) (F5 4) ;;
     ModularFieldInteger_add fermat_test u v).
Proof.
  destruct (field_ring_laws fermat_test (F5 2) (F5 3) (F5 4))
    as (_ & _ & H & _).
  - apply F5_ok. lia.
  - apply F5_ok. lia.
  - apply F5_ok. lia.
  - reflexivity.
  - reflexivity.
  - exact H.
Defined.

(** ** Encodings *)

(** Signature(r = 2^255, s = 1). *)
Lemma Signature_der_canonical_witness :
  exists rbody sbody,
    Signature_der (mkSignature (2 ^ 255) 1) = Ok (der_layout rbody sbody)
    /\ der_minimal rbody /\ der_minimal sbody.
Proof.
  destruct (Signature_der_canonical (2 ^ 255) 1)
    as (rbody & sbody & H & Hr & Hs & _).
  - split; (reflexivity || discriminate).
  - split; (reflexivity || discriminate).
  - exists rbody, sbody. split; [exact H | split; [exact Hr | exact Hs]].
Defined.

(** An encoding with a padded [r]: the body [00 01] is read as 1. *)
Lemma Signature_parse_iff_layout_witness :
  Signature_parse (der_layout [Byte.x00; Byte.x01] [Byte.x01])
  = Ok (mkSignature 1 1).
Proof.
  apply Signature_parse_iff_layout.
  exists [Byte.x00; Byte.x01], [Byte.x01].
  split; [reflexivity | split; [cbn [length]; lia | reflexivity]].
Defined.

(** The compressed encoding of the generator, whose [y] is even. *)
Lemma S256Point_sec_layout_witness :
  exists xb,
    S256Point_sec G true = Ok (Byte.x02 :: xb) /\ from_bytes xb = G_X.
Proof.
  pose proof (S256Point_sec_layout G) as H.
  unfold G in H. cbn [coords value] in H.
  destruct H as [H _]. destruct H as (xb & yb & _ & _ & Hx & _ & Hc & _).
  - vm_compute. split; [discriminate | reflexivity].
  - vm_compute. split; [discriminate | reflexivity].
  - exists xb. split; [ | exact Hx].
    replace ((G_Y mod EC_PRIME) mod 2 =? 0) with true in Hc
      by (vm_compute; reflexivity).
    exact Hc.
Defined.

(** ** Points of the curve y^2 = x^3 + x + 1 over the field of 5 elements *)

(** (0, 1) is on the curve. *)
Lemma constructor_checks_curve_equation_witness :
  EllipcCurvePoint_init fermat_test EllipcCurvePointC
    (Some (F5 0)) (Some (F5 1)) (F5 1) (F5 1) = Ok (curve5 0 1).
Proof.
  destruct (constructor_checks_curve_equation fermat_test EllipcCurvePointC
              (F5 0) (F5 1) (F5 1) (F5 1)) as (H & _).
  - apply F5_ok. lia.
  - apply F5_ok. lia.
  - apply F5_ok. lia.
  - reflexivity.
  - reflexivity.
  - reflexivity.
  - exact prime_5.
  - reflexivity.
  - exact H.
Defined.

Lemma curve5_0_1_ok : point_ok fermat_test (curve5 0 1).
Proof. apply point_ok_curve5; [lia | lia | reflexivity]. Defined.

Lemma curve5_2_1_ok : point_ok fermat_test (curve5 2 1).
Proof. apply point_ok_curve5; [lia | lia | reflexivity]. Defined.

(** (0, 1) + (2, 1). *)
Lemma add_returns_point_witness :
  exists R,
    EllipcCurvePoint_add fermat_test (curve5 0 1) (curve5 2 1) = Ok (Some R)
    /\ point_ok fermat_test R.
Proof.
  destruct (add_returns_point fermat_test (curve5 0 1) (curve5 2 1))
    as (R & Hadd & Hok & _).
  - exact curve5_0_1_ok.
  - exact curve5_2_1_ok.
  - split; reflexivity.
  - exact prime_5.
  - reflexivity.
  - exists R. split; [exact Hadd | exact Hok].
Defined.

(** (0, 1) + (2, 1) and (2, 1) + (0, 1). *)
Lemma add_commutes_witness :
  exists R R',
    EllipcCurvePoint_add fermat_test (curve5 0 1) (curve5 2 1) = Ok (Some R)
    /\ EllipcCurvePoint_add fermat_test (curve5 2 1) (curve5 0 1)
       = Ok (Some R')
    /\ EllipcCurvePoint_eq R R' = true.
Proof.
  apply (add_commutes fermat_test (curve5 0 1) (curve5 2 1)).
  - exact curve5_0_1_ok.
  - exact curve5_2_1_ok.
  - split; reflexivity.
  - exact prime_5.
  - reflexivity.
Defined.

(** 5 * (0, 1), in three rounds of the loop. *)
Lemma rmul_returns_point_witness :
  exists R,
    EllipcCurvePoint_rmul fermat_test 3 5 (curve5 0 1) = Ok (Some R)
    /\ point_ok fermat_test R.
Proof.
  destruct (rmul_returns_point fermat_test 3 5 (curve5 0 1))
    as (R & Hmul & Hok & _).
  - exact curve5_0_1_ok.
  - exact prime_5.
  - reflexivity.
  - split; [discriminate | reflexivity].
  - exists R. split; [exact Hmul | exact Hok].
Defined.

(** -3 * (0, 1), given a hundred rounds. *)
Lemma rmul_negative_never_returns_witness :
  EllipcCurvePoint_rmul fermat_test 100 (-3) (curve5 0 1) = OutOfFuel.
Proof.
  apply (rmul_negative_never_returns fermat_test 100 (-3) (curve5 0 1)).
  - exact curve5_0_1_ok.
  - exact prime_5.
  - reflexivity.
  - reflexivity.
Defined.

(** ** Verification and signing on secp256k1 *)

(** verify(z = 1, Signature(1, 1)) against the generator. *)
Lemma verify_returns_witness :
  halts (S256Point_verify fermat_test 256 G 1 (mkSignature 1 1)).
Proof. apply (verify_returns fermat_test 256 G 1 (mkSignature 1 1)). lia. Defined.

(** The secret 1 and the hash 0, with an HMAC whose digest is always the
    number 1: the first candidate is returned. *)
Lemma deterministic_k_range_witness :
  1 <= 1 < G_ORDER /\ 0 <= 1 < 2 ^ 256 /\ 0 <= 0 < 2 ^ 256 + G_ORDER.
Proof.
  apply (deterministic_k_range (fun _ _ => be_bytes 32 1) 1
           (mkPrivateKey 1 (Some G)) 0 1).
  vm_compute. reflexivity.
Defined.

Lemma sign_with_constant_hmac :
  PrivateKey_sign fermat_test (fun _ _ => be_bytes 32 1) 1
    (mkPrivateKey 1 (Some G)) 0
  = Ok (mkSignature G_X G_X).
Proof.
  unfold PrivateKey_sign.
  replace (PrivateKey_deterministic_k (fun _ _ => be_bytes 32 1) 1
             (mkPrivateKey 1 (Some G)) 0)
    with (@Ok Z 1) by (vm_compute; reflexivity).
  rewrite bind_Ok.
  rewrite (sign_with_nonce_one fermat_test 0 fermat_test_EC_PRIME).
  vm_compute. reflexivity.
Defined.

(** The signature of the hash 0 under the secret 1, with that HMAC. *)
Lemma sign_s_bound_witness : 0 <= G_X <= 2 ^ 255.
Proof.
  apply (sign_s_bound fermat_test (fun _ _ => be_bytes 32 1) 1
           (mkPrivateKey 1 (Some G)) 0 (mkSignature G_X G_X)).
  exact sign_with_constant_hmac.
Defined.

(** (2, 1) + (2, 1) on the curve y^2 = x^3 + x over the field of 3
    elements. *)
Lemma add_raises_over_field_of_3_witness :
  Point_new fermat_test EllipcCurvePointC (Some (F3 2)) (Some (F3 1))
    (F3 1) (F3 0) = Ok (curve3 2 1)
  /\ EllipcCurvePoint_add fermat_test (curve3 2 1) (curve3 2 1)
     = Raise ValueError.
Proof.
  destruct (add_raises_over_field_of_3 fermat_test)
    as (Hnew & _ & _ & _ & _ & _ & _ & Hadd).
  - reflexivity.
  - split; [exact Hnew | exact Hadd].
Defined.
